(** * DuckDB core: expression executor and version manager

    A shallow embedding of
      - src/execution/expression_executor.cpp
      - src/storage/table/version_manager.cpp
    and the properties of these two files stated in the specification.

    Conventions.
      - [index_t] and [transaction_t] are unsigned 64-bit, [row_t] is signed
        64-bit; they are modelled as [Z] and every conversion is written out
        ([to_index_t], [to_row_t]).  Signed division and remainder truncate
        towards zero ([Z.quot], [Z.rem]).
      - The map [info] of a version manager is a [gmap Z ChunkInfo].
      - Code that can throw, fail an [assert] or leave the defined behaviour
        of C++ returns a [Result]. *)

From stdpp Require Import gmap list strings sorting.
From Stdlib Require Import ZArith Lia.

Local Open Scope Z_scope.

(** ** Failure *)

Inductive Error : Type :=
| Exception (msg : string)
| NotImplementedException (msg : string)
| AssertionFailure
| OutOfBounds
| NullPointer.

Inductive Result (A : Type) : Type :=
| Ok (a : A)
| Throw (e : Error).
Arguments Ok {A} a.
Arguments Throw {A} e.

#[global] Instance Result_ret : MRet Result := λ A a, Ok a.
#[global] Instance Result_bind : MBind Result :=
  λ A B f m, match m with Ok a => f a | Throw e => Throw e end.

Definition assert (b : bool) : Result unit :=
  if b then Ok tt else Throw AssertionFailure.

Fixpoint foldlM {A B : Type} (f : A → B → Result A) (l : list B) (a : A) : Result A :=
  match l with
  | [] => Ok a
  | b :: l' => a' ← f a b; foldlM f l' a'
  end.

(** ** Machine integers *)

Definition to_index_t (z : Z) : Z := z `mod` 2 ^ 64.
Definition to_row_t (z : Z) : Z := (z + 2 ^ 63) `mod` 2 ^ 64 - 2 ^ 63.

(** ** Vectors

    Modelled from the spec: the vector of the batch primitives, which the two
    files use and do not define.  A vector points to its data and,
    optionally, to a selection vector; it has a row count, a null mask and may
    own its data.  Two vectors share a selection vector when they hold the
    same pointer, so data buffers and selection vectors live in a store
    addressed by pointers.  Buffers are not bounded in this store. *)

Definition ptr := nat.

Record Memory := {
  cells : ptr → Z → Z;          (* data buffers: cells p i is p[i] *)
  sels : ptr → Z → Z;           (* selection vectors *)
  brk : ptr                     (* next free address *)
}.

Inductive TypeId := BOOLEAN | TINYINT | SMALLINT | INTEGER | BIGINT | VARCHAR.

#[global] Instance TypeId_eq_dec : EqDecision TypeId.
Proof. solve_decision. Defined.

Record Vector := {
  type : TypeId;
  count : Z;
  data : ptr;
  sel_vector : option ptr;
  nullmask : Z → bool;
  owned_data : option ptr
}.

(** Modelled from the spec: VectorOperations::Exec(vector, fun) scans the row
    positions of the vector per its selection vector: it calls fun(i, k) for
    k = 0 .. count-1, with i = sel_vector[k], or i = k without a selection
    vector.  The list of the i, in the order of the calls. *)
Definition Exec_indices (mem : Memory) (v : Vector) : list Z :=
  (λ k, match sel_vector v with Some s => sels mem s k | None => k end)
    <$> seqZ 0 (count v).

(** * src/storage/table/version_manager.cpp *)

Module Storage.

(** Modelled from the spec: the two variants of ChunkInfo (their class
    definitions are not in version_manager.cpp).  A delete-info holds the set
    of deleted row offsets with the deleting transaction id, an insert-info
    holds in addition the commit id stamped on each row offset. *)
Inductive ChunkInfo :=
| ChunkDeleteInfo (start : Z) (deleted : gmap Z Z)
| ChunkInsertInfo (start : Z) (deleted : gmap Z Z) (inserted : gmap Z Z).

Inductive ChunkInfoType := INSERT_INFO | DELETE_INFO.

Definition info_type (ci : ChunkInfo) : ChunkInfoType :=
  match ci with
  | ChunkDeleteInfo _ _ => DELETE_INFO
  | ChunkInsertInfo _ _ _ => INSERT_INFO
  end.

Definition start_of (ci : ChunkInfo) : Z :=
  match ci with
  | ChunkDeleteInfo s _ | ChunkInsertInfo s _ _ => s
  end.

Definition deleted_of (ci : ChunkInfo) : gmap Z Z :=
  match ci with
  | ChunkDeleteInfo _ d | ChunkInsertInfo _ d _ => d
  end.

(** Modelled from the spec: the conversion ChunkInsertInfo(ChunkDeleteInfo &)
    builds an insert-info that subsumes the content of the delete-info. *)
Definition ChunkInsertInfo_of (ci : ChunkInfo) : ChunkInfo :=
  ChunkInsertInfo (start_of ci) (deleted_of ci) ∅.

(** Modelled from the spec: the undo-log sink of a transaction.  One record
    of the log is a call Transaction::PushDelete(info, rows, count, base_row),
    with the block of [info], the [count] first offsets of [rows] and the
    absolute base row. *)
Record DeleteUndo := {
  undo_block : Z;
  undo_rows : list Z;
  undo_base_row : Z
}.

Record Transaction := {
  transaction_id : Z;
  start_time : Z;
  undo_buffer : list DeleteUndo
}.

Definition PushDelete (t : Transaction) (block : Z) (rows : list Z) (base : Z) : Transaction :=
  {| transaction_id := transaction_id t;
     start_time := start_time t;
     undo_buffer := undo_buffer t ++
       [{| undo_block := block; undo_rows := rows; undo_base_row := base |}] |}.

(** Modelled from the spec: ChunkInfo::Delete(transaction, rows, count) marks
    the offsets as deleted by the transaction, in the record itself. *)
Definition mark_deleted (t : Transaction) (rows : list Z) (d : gmap Z Z) : gmap Z Z :=
  foldl (λ d r, <[r := transaction_id t]> d) d rows.

Definition ChunkInfo_Delete (t : Transaction) (rows : list Z) (ci : ChunkInfo) : ChunkInfo :=
  match ci with
  | ChunkDeleteInfo s d => ChunkDeleteInfo s (mark_deleted t rows d)
  | ChunkInsertInfo s d ins => ChunkInsertInfo s (mark_deleted t rows d) ins
  end.

(** The shared/exclusive lock of the manager is modelled by the log of what
    the methods do with the lock and with the map, in the order they do it.
    A lock guard is released when the method returns. *)
Inductive Event :=
| GetSharedLock
| GetExclusiveLock
| ReleaseLock
| InfoAccess (index : Z).

Record VersionManager := {
  info : gmap Z ChunkInfo;
  base_row : Z;
  max_row : Z;
  lock_log : list Event
}.

Definition log (e : Event) (m : VersionManager) : VersionManager :=
  {| info := info m; base_row := base_row m; max_row := max_row m;
     lock_log := lock_log m ++ [e] |}.

Definition set_info (f : gmap Z ChunkInfo → gmap Z ChunkInfo) (m : VersionManager) : VersionManager :=
  {| info := f (info m); base_row := base_row m; max_row := max_row m;
     lock_log := lock_log m |}.

Definition set_max_row (r : Z) (m : VersionManager) : VersionManager :=
  {| info := info m; base_row := base_row m; max_row := r;
     lock_log := lock_log m |}.

(** info.find(index) *)
Definition info_find (index : Z) (m : VersionManager) : option ChunkInfo * VersionManager :=
  (info m !! index, log (InfoAccess index) m).

(** info[index] = move(new_info) *)
Definition info_store (index : Z) (ci : ChunkInfo) (m : VersionManager) : VersionManager :=
  log (InfoAccess index) (set_info <[index := ci]> m).

(** info.erase(index) *)
Definition info_erase (index : Z) (m : VersionManager) : VersionManager :=
  log (InfoAccess index) (set_info (delete index) m).

Section VersionManager.

(** The number of rows of a block, a constant of the vector header. *)
Variable STANDARD_VECTOR_SIZE : Z.

(** The visibility rules of a ChunkInfo, which belong to the transaction
    layer: ChunkInfo::GetSelVector and ChunkInfo::Fetch. *)
Variable ChunkInfo_GetSelVector : ChunkInfo → Transaction → list Z → Z → Z * list Z.
Variable ChunkInfo_Fetch : ChunkInfo → Transaction → Z → bool.

Definition GetSelVector (m : VersionManager) (transaction : Transaction) (index : Z)
    (sel_vector : list Z) (max_count : Z) : Z * list Z * VersionManager :=
  (* obtain a read lock *)
  let m := log GetSharedLock m in
  let '(entry, m) := info_find index m in
  match entry with
  | None =>
      (* no info, use everything *)
      (max_count, sel_vector, log ReleaseLock m)
  | Some ci =>
      let '(n, sel_vector) := ChunkInfo_GetSelVector ci transaction sel_vector max_count in
      (n, sel_vector, log ReleaseLock m)
  end.

Definition Fetch (m : VersionManager) (transaction : Transaction) (row : Z)
    : bool * VersionManager :=
  let row := to_index_t (row - base_row m) in
  let vector_index := row / STANDARD_VECTOR_SIZE in
  let '(entry, m) := info_find vector_index m in
  match entry with
  | None =>
      (* no info, use the row *)
      (true, m)
  | Some ci =>
      (ChunkInfo_Fetch ci transaction
         (to_row_t (to_index_t (row - to_index_t (vector_index * STANDARD_VECTOR_SIZE)))), m)
  end.

(** VersionDeleteState.  [manager] and [transaction] are references in the
    source: the record holds the objects they refer to, which nothing else
    changes while the state lives.  [current_info] points to the record
    stored in [manager.info] under the key it holds; [chunk_row] is not
    initialised by the constructor. *)
Record VersionDeleteState := {
  manager : VersionManager;
  transaction : Transaction;
  current_info : option Z;
  current_chunk : Z;
  rows : list Z;
  del_count : Z;
  del_base_row : Z;
  chunk_row : option Z
}.

Definition new_VersionDeleteState (m : VersionManager) (t : Transaction) (base : Z)
    : VersionDeleteState :=
  {| manager := m; transaction := t; current_info := None;
     current_chunk := to_index_t (-1);
     rows := replicate (Z.to_nat STANDARD_VECTOR_SIZE) 0;
     del_count := 0; del_base_row := base; chunk_row := None |}.

Definition Flush (s : VersionDeleteState) : Result VersionDeleteState :=
  if decide (del_count s = 0) then Ok s
  else
    match current_info s, chunk_row s with
    | Some k, Some cr =>
        let offsets := take (Z.to_nat (del_count s)) (rows s) in
        (* delete in the current info *)
        let m := set_info (alter (ChunkInfo_Delete (transaction s) offsets) k) (manager s) in
        (* now push the delete into the undo buffer *)
        let t := PushDelete (transaction s) k offsets (to_index_t (del_base_row s + cr)) in
        Ok {| manager := m; transaction := t; current_info := current_info s;
              current_chunk := current_chunk s; rows := rows s; del_count := 0;
              del_base_row := del_base_row s; chunk_row := chunk_row s |}
    | _, _ => Throw NullPointer
    end.

Definition VersionDeleteState_Delete (s : VersionDeleteState) (row_id : Z)
    : Result VersionDeleteState :=
  let chunk_idx := to_index_t (Z.quot row_id STANDARD_VECTOR_SIZE) in
  let idx_in_chunk := to_index_t (row_id - to_index_t (chunk_idx * STANDARD_VECTOR_SIZE)) in
  (* check if we are targetting a different chunk than the current chunk *)
  s ← (if decide (chunk_idx ≠ current_chunk s) then
         (* if we are, first flush the previous chunk *)
         s ← Flush s;
         (* then look up if the chunk already exists *)
         let '(entry, m) := info_find chunk_idx (manager s) in
         let m :=
           match entry with
           | None =>
               (* no version info yet: have to create one *)
               info_store chunk_idx
                 (ChunkDeleteInfo (to_index_t (chunk_idx * STANDARD_VECTOR_SIZE)) ∅) m
           | Some _ =>
               (* version info already exists: alter existing version info *)
               m
           end in
         Ok {| manager := m; transaction := transaction s;
               current_info := Some chunk_idx; current_chunk := chunk_idx;
               rows := rows s; del_count := del_count s;
               del_base_row := del_base_row s;
               chunk_row := Some (to_index_t (chunk_idx * STANDARD_VECTOR_SIZE)) |}
       else Ok s);
  (* now add the row to the set of to-be-deleted rows: rows[count++] = idx_in_chunk *)
  if decide (del_count s < Z.of_nat (length (rows s))) then
    Ok {| manager := manager s; transaction := transaction s;
          current_info := current_info s; current_chunk := current_chunk s;
          rows := <[Z.to_nat (del_count s) := to_row_t idx_in_chunk]> (rows s);
          del_count := to_index_t (del_count s + 1);
          del_base_row := del_base_row s; chunk_row := chunk_row s |}
  else Throw OutOfBounds.

(** The row ids the loop of VersionManager::Delete hands to the delete state:
    ids[i] - base_row for the i of VectorOperations::Exec. *)
Definition Delete_row_ids (mem : Memory) (m : VersionManager) (row_ids : Vector) : list Z :=
  (λ i, to_row_t (to_index_t (cells mem (data row_ids) i - base_row m)))
    <$> Exec_indices mem row_ids.

Definition Delete (mem : Memory) (m : VersionManager) (txn : Transaction)
    (row_ids : Vector) : Result (VersionManager * Transaction) :=
  let ids := Delete_row_ids mem m row_ids in
  (* obtain a write lock; del_state refers to the manager that takes it *)
  let m := log GetExclusiveLock m in
  let del_state := new_VersionDeleteState m txn (base_row m) in
  del_state ← foldlM VersionDeleteState_Delete ids del_state;
  del_state ← Flush del_state;
  Ok (log ReleaseLock (manager del_state), transaction del_state).

(** GetInsertInfo returns a pointer to the insert-info it has found or
    stored under [chunk_idx]; in the model the caller reaches that record
    through the key [chunk_idx] of the manager that is returned. *)
Definition GetInsertInfo (m : VersionManager) (chunk_idx : Z) : VersionManager :=
  let '(entry, m) := info_find chunk_idx m in
  match entry with
  | None =>
      (* no version info yet: have to create one *)
      info_store chunk_idx
        (ChunkInsertInfo (to_index_t (chunk_idx * STANDARD_VECTOR_SIZE)) ∅ ∅) m
  | Some current_info =>
      (* version info already exists: check if it is insert or delete info *)
      match info_type current_info with
      | INSERT_INFO => m
      | DELETE_INFO =>
          (* delete info, change to insert info *)
          info_store chunk_idx (ChunkInsertInfo_of current_info) m
      end
  end.

(** current_info->inserted[idx_in_chunk] = commit_id, where current_info is
    the insert-info stored under [chunk_idx]. *)
Definition stamp (commit_id idx_in_chunk : Z) (ci : ChunkInfo) : ChunkInfo :=
  match ci with
  | ChunkInsertInfo s d ins => ChunkInsertInfo s d (<[idx_in_chunk := commit_id]> ins)
  | ChunkDeleteInfo s d => ChunkDeleteInfo s d
  end.

(** The body of the for loop of Append, run [n] times. *)
Fixpoint Append_loop (n : nat) (commit_id : Z) (m : VersionManager)
    (chunk_idx idx_in_chunk : Z) : VersionManager :=
  match n with
  | O => m
  | S n' =>
      let m := set_info (alter (stamp commit_id idx_in_chunk) chunk_idx) m in
      let idx_in_chunk := to_index_t (idx_in_chunk + 1) in
      if decide (idx_in_chunk = STANDARD_VECTOR_SIZE) then
        let chunk_idx := to_index_t (chunk_idx + 1) in
        Append_loop n' commit_id (GetInsertInfo m chunk_idx) chunk_idx 0
      else
        Append_loop n' commit_id m chunk_idx idx_in_chunk
  end.

Definition Append (m : VersionManager) (transaction : Transaction) (row_start : Z)
    (count : Z) (commit_id : Z) : VersionManager :=
  let chunk_idx := to_index_t (Z.quot row_start STANDARD_VECTOR_SIZE) in
  let idx_in_chunk := to_index_t (row_start - to_index_t (chunk_idx * STANDARD_VECTOR_SIZE)) in
  (* obtain a write lock *)
  let m := log GetExclusiveLock m in
  let m := GetInsertInfo m chunk_idx in
  let m := Append_loop (Z.to_nat count) commit_id m chunk_idx idx_in_chunk in
  let m := set_max_row (to_index_t (max_row m + count)) m in
  log ReleaseLock m.

(** The for loop of RevertAppend.  It runs once per index from chunk_start
    to chunk_end; [fuel] bounds the number of iterations and [None] says that
    the bound was reached with the loop condition still true. *)
Fixpoint RevertAppend_loop (fuel : nat) (m : VersionManager) (chunk_start chunk_end : Z)
    : option VersionManager :=
  if decide (chunk_start ≤ chunk_end) then
    match fuel with
    | O => None
    | S fuel' =>
        RevertAppend_loop fuel' (info_erase chunk_start m)
          (to_index_t (chunk_start + 1)) chunk_end
    end
  else Some m.

(** The loop leaves after chunk_end + 1 - chunk_start iterations, unless
    chunk_end is the largest index_t: chunk_start++ then wraps to 0 and the
    loop never leaves, which is the [None] of this model. *)
Definition RevertAppend (m : VersionManager) (row_start row_end : Z)
    : option VersionManager :=
  let m := log GetExclusiveLock m in
  let chunk_start :=
    to_index_t (Z.quot row_start STANDARD_VECTOR_SIZE +
                (if decide (Z.rem row_start STANDARD_VECTOR_SIZE = 0) then 0 else 1)) in
  let chunk_end := to_index_t (Z.quot row_end STANDARD_VECTOR_SIZE) in
  m ← RevertAppend_loop (Z.to_nat (chunk_end + 1 - chunk_start)) m chunk_start chunk_end;
  Some (log ReleaseLock m).

End VersionManager.

(** ** Notions the properties are stated with *)

(** The state of the entry of a block in the version map. *)
Inductive EntryState := Absent | InsertInfo | DeleteInfo.

Definition entry_state (m : VersionManager) (block : Z) : EntryState :=
  match info m !! block with
  | None => Absent
  | Some ci =>
      match info_type ci with
      | INSERT_INFO => InsertInfo
      | DELETE_INFO => DeleteInfo
      end
  end.

(** Block [block] holds the rows block * S .. (block + 1) * S - 1, for S the
    vector size.  It is fully contained in [row_start, row_end] when both its
    first and its last row are in the range. *)
Definition fully_contained (S block row_start row_end : Z) : Prop :=
  row_start ≤ block * S ∧ (block + 1) * S - 1 ≤ row_end.

Definition first_row_within (S block row_start row_end : Z) : Prop :=
  row_start ≤ block * S ≤ row_end.

(** The events a call has added to the log of the manager. *)
Definition new_events (m m' : VersionManager) : list Event :=
  drop (length (lock_log m)) (lock_log m').

(** Every access to the map happens while a lock is held; [held] says
    whether one is held before the first event. *)
Fixpoint lock_discipline (held : bool) (events : list Event) : bool :=
  match events with
  | [] => true
  | GetSharedLock :: events | GetExclusiveLock :: events => lock_discipline true events
  | ReleaseLock :: events => lock_discipline false events
  | InfoAccess _ :: events => held && lock_discipline held events
  end.

(** The maximal runs of consecutive row ids of one block, in the words of the
    specification: each run with its block and the offsets of its ids in the
    block, in the order of the ids. *)
Fixpoint runs (S : Z) (ids : list Z) : list (Z * list Z) :=
  match ids with
  | [] => []
  | r :: ids' =>
      match runs S ids' with
      | (block, offsets) :: rs =>
          if decide (r / S = block) then (block, r `mod` S :: offsets) :: rs
          else (r / S, [r `mod` S]) :: (block, offsets) :: rs
      | [] => [(r / S, [r `mod` S])]
      end
  end.

(** The undo record of a run. *)
Definition undo_of_run (S base : Z) (run : Z * list Z) : DeleteUndo :=
  {| undo_block := run.1; undo_rows := run.2; undo_base_row := base + run.1 * S |}.

(** The operations that change the version map, as steps of a state
    machine on the manager; a step that fails has no successor. *)
Inductive Operation :=
| OpAppend (transaction : Transaction) (row_start count commit_id : Z)
| OpDelete (mem : Memory) (transaction : Transaction) (row_ids : Vector)
| OpRevertAppend (row_start row_end : Z).

Definition step (S : Z) (op : Operation) (m : VersionManager) : option VersionManager :=
  match op with
  | OpAppend transaction row_start count commit_id =>
      Some (Append S m transaction row_start count commit_id)
  | OpDelete mem transaction row_ids =>
      match Delete S mem m transaction row_ids with
      | Ok (m', _) => Some m'
      | Throw _ => None
      end
  | OpRevertAppend row_start row_end => RevertAppend S m row_start row_end
  end.

(** What an operation may do to the entry of a block. *)
Definition Append_transition (before after : EntryState) : Prop :=
  after = before ∨ (before = Absent ∧ after = InsertInfo)
  ∨ (before = DeleteInfo ∧ after = InsertInfo).

Definition Delete_transition (before after : EntryState) : Prop :=
  after = before ∨ (before = Absent ∧ after = DeleteInfo).

Definition RevertAppend_transition (before after : EntryState) : Prop :=
  after = before ∨ after = Absent.

Definition transition (op : Operation) : EntryState → EntryState → Prop :=
  match op with
  | OpAppend _ _ _ _ => Append_transition
  | OpDelete _ _ _ => Delete_transition
  | OpRevertAppend _ _ => RevertAppend_transition
  end.

(** The state machine in the words of the specification: the three
    transitions between kinds, absence only through RevertAppend, and no
    delete-info removed without its promotion to an insert-info. *)
Definition specified_transition (op : Operation) (before after : EntryState) : Prop :=
  (after = before
   ∨ (before = Absent ∧ after = InsertInfo)
   ∨ (before = Absent ∧ after = DeleteInfo)
   ∨ (before = DeleteInfo ∧ after = InsertInfo)
   ∨ (after = Absent ∧ ∃ row_start row_end, op = OpRevertAppend row_start row_end))
  ∧ (before = DeleteInfo → after = DeleteInfo ∨ after = InsertInfo).

(** The slot [offset] of block [block] carries the commit id, in the
    insert-info of the block. *)
Definition stamped (m : VersionManager) (block offset commit_id : Z) : Prop :=
  ∃ s d ins, info m !! block = Some (ChunkInsertInfo s d ins)
             ∧ ins !! offset = Some commit_id.

Definition has_insert_info (m : VersionManager) (block : Z) : Prop :=
  ∃ s d ins, info m !! block = Some (ChunkInsertInfo s d ins).

(** Every entry of [m] is still there in [m'], with its first row and its
    deleted offsets. *)
Definition keeps_entries (m m' : VersionManager) : Prop :=
  ∀ block ci, info m !! block = Some ci →
    ∃ ci', info m' !! block = Some ci'
           ∧ start_of ci' = start_of ci ∧ deleted_of ci' = deleted_of ci.

(** A row id, relative to the first row of the manager, that Delete can
    be given: the row and its absolute id are row_t values. *)
Definition valid_row_id (base r : Z) : Prop := 0 ≤ r ∧ base + r < 2 ^ 63.

(** The delete state between two ids: [pre] are the ids of the run under way,
    whose offsets are the first [count] entries of [rows]. *)
Definition accumulating (S base : Z) (s : VersionDeleteState) (pre : list Z) : Prop :=
  del_count s = Z.of_nat (length pre)
  ∧ take (length pre) (rows s) = (λ r, r `mod` S) <$> pre
  ∧ length (rows s) = Z.to_nat S
  ∧ del_base_row s = base
  ∧ match pre with
    | [] => current_chunk s = to_index_t (-1)
    | r :: _ =>
        current_chunk s = r / S ∧ current_info s = Some (r / S)
        ∧ chunk_row s = Some (r / S * S) ∧ ∀ x, x ∈ pre → x / S = r / S
    end.

(** The row ids a Delete call is given, relative to the first row of the
    manager, in the order VectorOperations::Exec visits them. *)
Definition relative_ids (mem : Memory) (m : VersionManager) (row_ids : Vector) : list Z :=
  (λ i, cells mem (data row_ids) i - base_row m) <$> Exec_indices mem row_ids.

(** ** Further notions *)

Definition is_access (e : Event) : bool :=
  match e with
  | InfoAccess _ => true
  | _ => false
  end.

(** The method only accesses the map between [m] and [m']. *)
Definition only_accesses (m m' : VersionManager) : Prop :=
  ∃ accesses, lock_log m' = lock_log m ++ accesses
              ∧ Forall (λ e, is_access e = true) accesses.

Definition inserted_of (ci : ChunkInfo) : gmap Z Z :=
  match ci with
  | ChunkDeleteInfo _ _ => ∅
  | ChunkInsertInfo _ _ ins => ins
  end.

(** The commit id stamped on a row slot, if its block holds an insert-info
    with a stamp for the slot. *)
Definition slot (m : VersionManager) (block offset : Z) : option Z :=
  match info m !! block with
  | Some ci => inserted_of ci !! offset
  | None => None
  end.

(** The row slot is recorded as deleted by the transaction with id [t]. *)
Definition marked (m : VersionManager) (block offset t : Z) : Prop :=
  ∃ ci, info m !! block = Some ci ∧ deleted_of ci !! offset = Some t.

(** index_t chunk_idx = row_id / STANDARD_VECTOR_SIZE *)
Definition chunk_of (S row_id : Z) : Z := to_index_t (Z.quot row_id S).

(** Every entry of [m] is still there in [m'], of the same kind, with its
    first row and its stamps. *)
Definition keeps_stamps (m m' : VersionManager) : Prop :=
  ∀ block ci, info m !! block = Some ci →
    ∃ ci', info m' !! block = Some ci'
           ∧ start_of ci' = start_of ci ∧ info_type ci' = info_type ci
           ∧ inserted_of ci' = inserted_of ci.

(** The two managers have the same first row and the same high-water mark. *)
Definition same_rows (m m' : VersionManager) : Prop :=
  base_row m' = base_row m ∧ max_row m' = max_row m.

(** The transaction of the delete state keeps its identity, and its undo
    buffer only grows at the end. *)
Definition extends (t t' : Transaction) : Prop :=
  transaction_id t' = transaction_id t ∧ start_time t' = start_time t
  ∧ undo_buffer t `prefix_of` undo_buffer t'.

End Storage.

(** * src/execution/expression_executor.cpp *)

Module Execution.

(** [sel_t], the type of a row position in a selection vector, is unsigned
    16-bit. *)
Definition to_sel_t (z : Z) : Z := z `mod` 2 ^ 16.

(** Modelled from the spec: the values, expressions and chunks the executor
    consumes.  A value is NULL or a payload; an expression has a class tag, a
    declared result type and a foldability flag; a chunk groups vectors of
    equal length and a shared selection vector. *)
Inductive Value := NullValue | Val (z : Z).

#[global] Instance Value_eq_dec : EqDecision Value.
Proof. solve_decision. Defined.

(** The class tags the executor dispatches on; [OTHER_CLASS] stands for the
    remaining tags of the enumeration. *)
Inductive ExpressionClass :=
| BOUND_REF | BOUND_BETWEEN | BOUND_CASE | BOUND_CAST | COMMON_SUBEXPRESSION
| BOUND_COMPARISON | BOUND_CONJUNCTION | BOUND_CONSTANT | BOUND_FUNCTION
| BOUND_OPERATOR | BOUND_PARAMETER | OTHER_CLASS.

Record Expression := {
  expression_class : ExpressionClass;
  return_type : TypeId;
  IsFoldable : bool
}.

Record DataChunk := {
  chunk_data : list Vector;
  chunk_sel_vector : option ptr
}.

(** Modelled from the spec: DataChunk::size(), the row count of a chunk, which
    groups vectors of equal length: the count of its first vector. *)
Definition size (c : DataChunk) : Z :=
  match chunk_data c with
  | [] => 0
  | v :: _ => count v
  end.

(** Modelled from the spec: Vector::IsConstant(), a vector that holds one
    logical value and no selection vector. *)
Definition IsConstant (v : Vector) : bool :=
  bool_decide (count v = 1) && bool_decide (sel_vector v = None).

(** Modelled from the spec: Vector::GetValue(k), the value of logical row k:
    the selection vector gives its position, the null mask says whether the
    position holds NULL. *)
Definition position (mem : Memory) (v : Vector) (k : Z) : Z :=
  match sel_vector v with
  | Some s => sels mem s k
  | None => k
  end.

Definition GetValue (mem : Memory) (v : Vector) (k : Z) : Value :=
  let i := position mem v k in
  if nullmask v i then NullValue else Val (cells mem (data v) i).

Definition set_nullmask (f : Z → bool) (v : Vector) : Vector :=
  {| type := type v; count := count v; data := data v; sel_vector := sel_vector v;
     nullmask := f; owned_data := owned_data v |}.

Definition set_owned_data (o : option ptr) (v : Vector) : Vector :=
  {| type := type v; count := count v; data := data v; sel_vector := sel_vector v;
     nullmask := nullmask v; owned_data := o |}.

(** if (result.data == initial_data) result.owned_data = move(owned_data) *)
Definition restore_owned_data (owned : option ptr) (initial_data : ptr) (result : Vector)
    : Vector :=
  if decide (data result = initial_data) then set_owned_data owned result else result.

(** result.data = initial_data; result.count = chunk->size();
    result.sel_vector = chunk->sel_vector *)
Definition broadcast_target (c : DataChunk) (initial_data : ptr) (result : Vector) : Vector :=
  {| type := type result; count := size c; data := initial_data;
     sel_vector := chunk_sel_vector c; nullmask := nullmask result;
     owned_data := owned_data result |}.

Definition fill (mem : Memory) (p : ptr) (l : list Z) (z : Z) : Memory :=
  {| cells := λ q i, if bool_decide (q = p ∧ i ∈ l) then z else cells mem q i;
     sels := sels mem; brk := brk mem |}.

(** Modelled from the spec: VectorOperations::Set(result, value) broadcasts
    the value across the rows of [result], honouring its selection vector: a
    NULL sets the whole null mask, another value clears it and is written at
    every position of the vector. *)
Definition Set_ (mem : Memory) (result : Vector) (value : Value) : Memory * Vector :=
  match value with
  | NullValue => (mem, set_nullmask (λ _, true) result)
  | Val z => (fill mem (data result) (Exec_indices mem result) z,
              set_nullmask (λ _, false) result)
  end.

(** intermediate_result[i] && !intermediate.nullmask[i] *)
Definition is_selected (mem : Memory) (intermediate : Vector) (i : Z) : bool :=
  bool_decide (cells mem (data intermediate) i ≠ 0) && negb (nullmask intermediate i).

(** Vector intermediate(TypeId::BOOLEAN, (data_ptr_t)intermediate_bools): an
    empty vector over a buffer it does not own. *)
Definition intermediate_vector (intermediate_bools : ptr) : Vector :=
  {| type := BOOLEAN; count := 0; data := intermediate_bools; sel_vector := None;
     nullmask := λ _, false; owned_data := None |}.

(** A local array, or a buffer the constructor of a vector allocates. *)
Definition alloc (mem : Memory) : ptr * Memory :=
  (brk mem, {| cells := cells mem; sels := sels mem; brk := S (brk mem) |}).

Section ExpressionExecutor.

(** The scratch state of an expression node and its Reset. *)
Variable ExpressionState : Type.
Variable Reset : ExpressionState → ExpressionState.

(** Vector::Verify(), the consistency check of a vector. *)
Variable Vector_Verify : Memory → Vector → bool.

Record ExpressionExecutorState := {
  root_state : option ExpressionState
}.

Record ExpressionExecutor := {
  expressions : list Expression;
  states : list ExpressionExecutorState;
  chunk : option DataChunk
}.

(** The specialised routines, one per expression class, which are defined in
    other files: they see the expression, the state of the node, the input
    chunk of the executor and the memory, and fill the result vector. *)
Definition Executed : Type := option ExpressionState * Memory * Vector.
Definition Selected : Type := option ExpressionState * Memory * (Z * list Z).

Definition ExecuteRoutine : Type :=
  Expression → option ExpressionState → option DataChunk → Memory → Vector →
  Result Executed.
Definition SelectRoutine : Type :=
  Expression → option ExpressionState → option DataChunk → Memory → list Z →
  Result Selected.
Definition InitializeRoutine : Type := Expression → Result (option ExpressionState).

Record Routines := {
  Initialize_BoundReference : InitializeRoutine;
  Initialize_BoundBetween : InitializeRoutine;
  Initialize_BoundCase : InitializeRoutine;
  Initialize_BoundCast : InitializeRoutine;
  Initialize_CommonSubExpression : InitializeRoutine;
  Initialize_BoundComparison : InitializeRoutine;
  Initialize_BoundConjunction : InitializeRoutine;
  Initialize_BoundConstant : InitializeRoutine;
  Initialize_BoundFunction : InitializeRoutine;
  Initialize_BoundOperator : InitializeRoutine;
  Initialize_BoundParameter : InitializeRoutine;
  Execute_BoundBetween : ExecuteRoutine;
  Execute_BoundReference : ExecuteRoutine;
  Execute_BoundCase : ExecuteRoutine;
  Execute_BoundCast : ExecuteRoutine;
  Execute_CommonSubExpression : ExecuteRoutine;
  Execute_BoundComparison : ExecuteRoutine;
  Execute_BoundConjunction : ExecuteRoutine;
  Execute_BoundConstant : ExecuteRoutine;
  Execute_BoundFunction : ExecuteRoutine;
  Execute_BoundOperator : ExecuteRoutine;
  Execute_BoundParameter : ExecuteRoutine;
  Select_BoundBetween : SelectRoutine;
  Select_BoundComparison : SelectRoutine;
  Select_BoundConjunction : SelectRoutine
}.

Variable R : Routines.

Definition InitializeState (expr : Expression) : Result (option ExpressionState) :=
  match expression_class expr with
  | BOUND_REF => Initialize_BoundReference R expr
  | BOUND_BETWEEN => Initialize_BoundBetween R expr
  | BOUND_CASE => Initialize_BoundCase R expr
  | BOUND_CAST => Initialize_BoundCast R expr
  | COMMON_SUBEXPRESSION => Initialize_CommonSubExpression R expr
  | BOUND_COMPARISON => Initialize_BoundComparison R expr
  | BOUND_CONJUNCTION => Initialize_BoundConjunction R expr
  | BOUND_CONSTANT => Initialize_BoundConstant R expr
  | BOUND_FUNCTION => Initialize_BoundFunction R expr
  | BOUND_OPERATOR => Initialize_BoundOperator R expr
  | BOUND_PARAMETER => Initialize_BoundParameter R expr
  | OTHER_CLASS =>
      Throw (NotImplementedException
               "Attempting to initialize state of expression of unknown type!")
  end.

Definition Initialize (expression : Expression) : Result ExpressionExecutorState :=
  root ← InitializeState expression;
  Ok {| root_state := root |}.

Definition AddExpression (ex : ExpressionExecutor) (expr : Expression)
    : Result ExpressionExecutor :=
  state ← Initialize expr;
  Ok {| expressions := expressions ex ++ [expr];
        states := states ex ++ [state];
        chunk := chunk ex |}.

(** ExpressionExecutor(Expression &expression); a new executor has no chunk. *)
Definition new_ExpressionExecutor (expression : Expression) : Result ExpressionExecutor :=
  AddExpression {| expressions := []; states := []; chunk := None |} expression.

Definition SetChunk (ex : ExpressionExecutor) (c : option DataChunk) : ExpressionExecutor :=
  {| expressions := expressions ex; states := states ex; chunk := c |}.

Definition Verify (mem : Memory) (expr : Expression) (vector : Vector) : Result unit :=
  _ ← assert (bool_decide (return_type expr = type vector));
  assert (Vector_Verify mem vector).

Definition Execute (ex : ExpressionExecutor) (mem : Memory) (expr : Expression)
    (state : option ExpressionState) (result : Vector) : Result Executed :=
  let state := Reset <$> state in
  '(state, mem, result) ←
    match expression_class expr with
    | BOUND_BETWEEN => Execute_BoundBetween R expr state (chunk ex) mem result
    | BOUND_REF => Execute_BoundReference R expr state (chunk ex) mem result
    | BOUND_CASE => Execute_BoundCase R expr state (chunk ex) mem result
    | BOUND_CAST => Execute_BoundCast R expr state (chunk ex) mem result
    | COMMON_SUBEXPRESSION => Execute_CommonSubExpression R expr state (chunk ex) mem result
    | BOUND_COMPARISON => Execute_BoundComparison R expr state (chunk ex) mem result
    | BOUND_CONJUNCTION => Execute_BoundConjunction R expr state (chunk ex) mem result
    | BOUND_CONSTANT => Execute_BoundConstant R expr state (chunk ex) mem result
    | BOUND_FUNCTION => Execute_BoundFunction R expr state (chunk ex) mem result
    | BOUND_OPERATOR => Execute_BoundOperator R expr state (chunk ex) mem result
    | BOUND_PARAMETER => Execute_BoundParameter R expr state (chunk ex) mem result
    | OTHER_CLASS =>
        Throw (NotImplementedException "Attempting to execute expression of unknown type!")
    end;
  _ ← Verify mem expr result;
  Ok (state, mem, result).

Definition set_root_state (ex : ExpressionExecutor) (expr_idx : nat)
    (root : option ExpressionState) : ExpressionExecutor :=
  {| expressions := expressions ex;
     states := <[expr_idx := {| root_state := root |}]> (states ex);
     chunk := chunk ex |}.

Definition length_mismatch : string :=
  "Computed vector length does not match expected length!".

(** The reconciliation of ExecuteExpression(expr_idx, result) with the input
    chunk, lines 77 to 92. *)
Definition reconcile (c : DataChunk) (initial_data : ptr) (mem : Memory) (result : Vector)
    : Result (Memory * Vector) :=
  '(mem, result) ←
    (if IsConstant result then
       (* have to duplicate the constant value to match the rows in the other columns *)
       let constant_value := GetValue mem result 0 in
       let result := broadcast_target c initial_data result in
       Ok (Set_ mem result constant_value)
     else if decide (count result ≠ size c) then
       Throw (Exception length_mismatch)
     else Ok (mem, result));
  _ ← assert (bool_decide (sel_vector result = chunk_sel_vector c));
  Ok (mem, result).

(** ExecuteExpression(index_t expr_idx, Vector &result) *)
Definition ExecuteExpression (ex : ExpressionExecutor) (mem : Memory) (expr_idx : Z)
    (result : Vector) : Result (ExpressionExecutor * Memory * Vector) :=
  _ ← assert (bool_decide (0 ≤ expr_idx < Z.of_nat (length (expressions ex))));
  match expressions ex !! Z.to_nat expr_idx, states ex !! Z.to_nat expr_idx with
  | Some expr, Some state =>
      _ ← assert (bool_decide (type result = return_type expr));
      let owned := owned_data result in
      let result := set_owned_data None result in
      let initial_data := data result in
      '(root, mem, result) ← Execute ex mem expr (root_state state) result;
      let ex := set_root_state ex (Z.to_nat expr_idx) root in
      '(mem, result) ←
        match chunk ex with
        | Some c =>
            (* we have an input chunk: result of this vector should have the
               same length as input chunk *)
            reconcile c initial_data mem result
        | None => Ok (mem, result)
        end;
      let result := restore_owned_data owned initial_data result in
      Ok (ex, mem, result)
  | _, _ => Throw NullPointer
  end.

(** ExecuteExpression(Vector &result) *)
Definition ExecuteExpression_vector (ex : ExpressionExecutor) (mem : Memory)
    (result : Vector) : Result (ExpressionExecutor * Memory * Vector) :=
  _ ← assert (bool_decide (length (expressions ex) = 1%nat));
  ExecuteExpression ex mem 0 result.

(** ExecuteExpression(DataChunk &input, Vector &result) *)
Definition ExecuteExpression_chunk (ex : ExpressionExecutor) (mem : Memory)
    (input : DataChunk) (result : Vector) : Result (ExpressionExecutor * Memory * Vector) :=
  let ex := SetChunk ex (Some input) in
  ExecuteExpression_vector ex mem result.

(** Vector result(expr.return_type, true, false): an empty vector that owns a
    buffer of its own, which is not zeroed. *)
Definition new_Vector (mem : Memory) (t : TypeId) : Memory * Vector :=
  let '(p, mem) := alloc mem in
  (mem, {| type := t; count := 0; data := p; sel_vector := None;
           nullmask := λ _, false; owned_data := Some p |}).

Definition EvaluateScalar (mem : Memory) (expr : Expression) : Result (Memory * Value) :=
  _ ← assert (IsFoldable expr);
  (* use an ExpressionExecutor to execute the expression *)
  executor ← new_ExpressionExecutor expr;
  let '(mem, result) := new_Vector mem (return_type expr) in
  '(executor, mem, result) ← ExecuteExpression_vector executor mem result;
  _ ← assert (bool_decide (count result = 1));
  Ok (mem, GetValue mem result 0).

(** The callback of the scan in DefaultSelect: position i is appended to the
    output when its value is true and not NULL; result[result_count++] = i. *)
Definition select_row (mem : Memory) (intermediate : Vector) (acc : Z * list Z) (i : Z)
    : Result (Z * list Z) :=
  let '(result_count, result) := acc in
  if is_selected mem intermediate i then
    if decide (result_count < Z.of_nat (length result)) then
      Ok (to_index_t (result_count + 1),
          <[Z.to_nat result_count := to_sel_t i]> result)
    else Throw OutOfBounds
  else Ok acc.

Definition DefaultSelect (ex : ExpressionExecutor) (mem : Memory) (expr : Expression)
    (state : option ExpressionState) (result : list Z) : Result Selected :=
  (* resolve the true/false expression first *)
  let '(intermediate_bools, mem) := alloc mem in
  let intermediate := intermediate_vector intermediate_bools in
  '(state, mem, intermediate) ← Execute ex mem expr state intermediate;
  if IsConstant intermediate then
    (* constant result: get the value *)
    if is_selected mem intermediate 0 then
      (* constant true: return everything; the selection vector is not filled *)
      match chunk ex with
      | Some c => Ok (state, mem, (size c, result))
      | None => Throw NullPointer
      end
    else
      (* constant false: filter everything *)
      Ok (state, mem, (0, result))
  else
    (* not a constant value *)
    selected ← foldlM (select_row mem intermediate) (Exec_indices mem intermediate) (0, result);
    Ok (state, mem, selected).

Definition Select (ex : ExpressionExecutor) (mem : Memory) (expr : Expression)
    (state : option ExpressionState) (result : list Z) : Result Selected :=
  _ ← assert (bool_decide (return_type expr = BOOLEAN));
  match expression_class expr with
  | BOUND_BETWEEN => Select_BoundBetween R expr state (chunk ex) mem result
  | BOUND_COMPARISON => Select_BoundComparison R expr state (chunk ex) mem result
  | BOUND_CONJUNCTION => Select_BoundConjunction R expr state (chunk ex) mem result
  | _ => DefaultSelect ex mem expr state result
  end.

Definition SelectExpression (ex : ExpressionExecutor) (mem : Memory) (input : DataChunk)
    (result : list Z) : Result (ExpressionExecutor * Memory * (Z * list Z)) :=
  _ ← assert (bool_decide (length (expressions ex) = 1%nat));
  let ex := SetChunk ex (Some input) in
  match expressions ex !! 0%nat, states ex !! 0%nat with
  | Some expr, Some state =>
      '(root, mem, selected) ← Select ex mem expr (root_state state) result;
      Ok (set_root_state ex 0 root, mem, selected)
  | _, _ => Throw NullPointer
  end.

End ExpressionExecutor.

Arguments root_state {_} _.
Arguments expressions {_} _.
Arguments states {_} _.
Arguments chunk {_} _.
Arguments set_root_state {_} _ _ _.
Arguments SetChunk {_} _ _.

(** ** Notions the properties are stated with *)

(** The positions DefaultSelect selects from the vector of booleans, in the
    order of the scan: those that hold true and are not NULL. *)
Definition selected_positions (mem : Memory) (intermediate : Vector) : list Z :=
  filter (λ i, is_selected mem intermediate i = true) (Exec_indices mem intermediate).

Section Foldable.

Variable ExpressionState : Type.
Variable Reset : ExpressionState → ExpressionState.
Variable Vector_Verify : Memory → Vector → bool.
Variable R : Routines ExpressionState.


End Foldable.

(** ** The other constructors *)

Section Constructors.

Variable ExpressionState : Type.
Variable R : Routines ExpressionState.

(** ExpressionExecutor(vector<unique_ptr<Expression>> &exprs) *)
Definition new_ExpressionExecutor_exprs (exprs : list Expression)
    : Result (ExpressionExecutor ExpressionState) :=
  _ ← assert (bool_decide (0 < length exprs)%nat);
  foldlM (AddExpression ExpressionState R) exprs
    {| expressions := []; states := []; chunk := None |}.

End Constructors.

End Execution.

(** * Concrete inputs

    A vector size, a manager, a transaction, vectors and routines on which
    the code is evaluated. *)

Module Sample.

Import Storage Execution.

Definition vector_size : Z := 1024.

(** Visibility rules that hide every row. *)
Definition hide_all : ChunkInfo → Transaction → list Z → Z → Z * list Z :=
  λ _ _ sel_vector _, (0, sel_vector).
Definition hide_row : ChunkInfo → Transaction → Z → bool := λ _ _ _, false.

Definition empty_manager : VersionManager :=
  {| info := ∅; base_row := 0; max_row := 0; lock_log := [] |}.

Definition txn : Transaction :=
  {| transaction_id := 7; start_time := 7; undo_buffer := [] |}.

(** A memory with one data buffer, at address 0, and one selection vector,
    at address 5. *)
Definition memory_of (values selection : list Z) : Memory :=
  {| cells := λ p i, if decide (p = 0%nat) then default 0 (values !! Z.to_nat i) else 0;
     sels := λ p k, if decide (p = 5%nat) then default 0 (selection !! Z.to_nat k) else 0;
     brk := 6%nat |}.

Definition column (t : TypeId) (n : Z) (sel : option ptr) : Vector :=
  {| type := t; count := n; data := 0%nat; sel_vector := sel;
     nullmask := λ _, false; owned_data := None |}.

(** The rows 5 and 3, in this order. *)
Definition rows_5_3 : Memory := memory_of [5; 3] [].
Definition ids_5_3 : Vector := column BIGINT 2 None.

(** The manager after six rows were appended to the empty manager. *)
Definition appended : VersionManager := Append vector_size empty_manager txn 0 6 9.

(** The manager after the rows 0 to 1999 were appended to the empty manager:
    block 0 holds the rows 0 to 1023 and block 1 the rows 1024 to 1999. *)
Definition filled : VersionManager := Append vector_size empty_manager txn 0 2000 9.

(** The row 1029, which lies in block 1; the manager after the row was
    deleted from the empty manager, and that manager after the append of the
    rows 1024 to 2047 was reverted. *)
Definition row_1029 : Memory := memory_of [1029] [].
Definition id_1029 : Vector := column BIGINT 1 None.

Definition deleted : VersionManager :=
  default empty_manager (step vector_size (OpDelete row_1029 txn id_1029) empty_manager).

Definition reverted : VersionManager :=
  default empty_manager (step vector_size (OpRevertAppend 1024 2047) deleted).

(** An executor over nodes without scratch state, whose vectors all pass
    Verify. *)
Definition no_state : Type := unit.
Definition no_reset : no_state → no_state := λ st, st.
Definition verified : Memory → Vector → bool := λ _ _, true.

Definition unsupported_initialize : InitializeRoutine no_state :=
  λ _, Throw (NotImplementedException "not part of this sample").
Definition unsupported_execute : ExecuteRoutine no_state :=
  λ _ _ _ _ _, Throw (NotImplementedException "not part of this sample").
Definition unsupported_select : SelectRoutine no_state :=
  λ _ _ _ _ _, Throw (NotImplementedException "not part of this sample").

(** A reference to the first column of the input chunk: the result refers
    to the data, the selection vector and the null mask of the column. *)
Definition reference_first_column : ExecuteRoutine no_state :=
  λ expr state chunk mem result,
    match chunk with
    | Some c =>
        match chunk_data c with
        | v :: _ =>
            Ok (state, mem,
                {| type := type result; count := count v; data := data v;
                   sel_vector := sel_vector v; nullmask := nullmask v;
                   owned_data := None |})
        | [] => Throw OutOfBounds
        end
    | None => Throw NullPointer
    end.

(** The constant 42: the result refers to a buffer that holds the value. *)
Definition constant_42 : ExecuteRoutine no_state :=
  λ expr state chunk mem result,
    let '(p, mem) := alloc mem in
    Ok (state,
        {| cells := λ q i, if decide (q = p) then 42 else cells mem q i;
           sels := sels mem; brk := brk mem |},
        {| type := type result; count := 1; data := p; sel_vector := None;
           nullmask := λ _, false; owned_data := None |}).

Definition routines : Routines no_state :=
  {| Initialize_BoundReference := λ _, Ok None;
     Initialize_BoundBetween := unsupported_initialize;
     Initialize_BoundCase := unsupported_initialize;
     Initialize_BoundCast := unsupported_initialize;
     Initialize_CommonSubExpression := unsupported_initialize;
     Initialize_BoundComparison := unsupported_initialize;
     Initialize_BoundConjunction := unsupported_initialize;
     Initialize_BoundConstant := λ _, Ok None;
     Initialize_BoundFunction := unsupported_initialize;
     Initialize_BoundOperator := unsupported_initialize;
     Initialize_BoundParameter := unsupported_initialize;
     Execute_BoundBetween := unsupported_execute;
     Execute_BoundReference := reference_first_column;
     Execute_BoundCase := unsupported_execute;
     Execute_BoundCast := unsupported_execute;
     Execute_CommonSubExpression := unsupported_execute;
     Execute_BoundComparison := unsupported_execute;
     Execute_BoundConjunction := unsupported_execute;
     Execute_BoundConstant := constant_42;
     Execute_BoundFunction := unsupported_execute;
     Execute_BoundOperator := unsupported_execute;
     Execute_BoundParameter := unsupported_execute;
     Select_BoundBetween := unsupported_select;
     Select_BoundComparison := unsupported_select;
     Select_BoundConjunction := unsupported_select |}.

Definition constant_expression : Expression :=
  {| expression_class := BOUND_CONSTANT; return_type := INTEGER; IsFoldable := true |}.

Definition flag_expression : Expression :=
  {| expression_class := BOUND_REF; return_type := BOOLEAN; IsFoldable := false |}.

Definition executor_of (expr : Expression) (c : option DataChunk)
    : ExpressionExecutor no_state :=
  {| expressions := [expr]; states := [{| root_state := None |}]; chunk := c |}.

(** A chunk of one boolean column with four true values, of which the
    selection vector lists the rows 3 and 1, in this order. *)
Definition flags : Memory := memory_of [1; 1; 1; 1] [3; 1].
Definition flags_chunk : DataChunk :=
  {| chunk_data := [column BOOLEAN 2 (Some 5%nat)]; chunk_sel_vector := Some 5%nat |}.

(** The same column without a selection vector, its rows 0 and 2 false. *)
Definition flags_plain : Memory := memory_of [0; 1; 0; 1] [].
Definition flags_plain_chunk : DataChunk :=
  {| chunk_data := [column BOOLEAN 4 None]; chunk_sel_vector := None |}.

(** A chunk of three rows and a result vector for an INTEGER expression. *)
Definition three_rows : DataChunk :=
  {| chunk_data := [column INTEGER 3 None]; chunk_sel_vector := None |}.
Definition integer_result : Vector :=
  {| type := INTEGER; count := 0; data := 1%nat; sel_vector := None;
     nullmask := λ _, false; owned_data := Some 1%nat |}.

(** A rule that shows a row unless the entry of its block records it as
    deleted. *)
Definition unless_deleted : ChunkInfo → Transaction → Z → bool :=
  λ ci _ offset, bool_decide (deleted_of ci !! offset = None).


(** The boolean constant true. *)
Definition true_expression : Expression :=
  {| expression_class := BOUND_CONSTANT; return_type := BOOLEAN; IsFoldable := true |}.

End Sample.

(** * Properties of the version manager *)

Section StorageProperties.

Import Storage.

Variable STANDARD_VECTOR_SIZE : Z.
Hypothesis vector_size_pos : 0 < STANDARD_VECTOR_SIZE.

Variable ChunkInfo_GetSelVector : ChunkInfo → Transaction → list Z → Z → Z * list Z.
Variable ChunkInfo_Fetch : ChunkInfo → Transaction → Z → bool.

Local Abbreviation S := STANDARD_VECTOR_SIZE.
Local Abbreviation GetSelVector := (GetSelVector ChunkInfo_GetSelVector).
Local Abbreviation Fetch := (Fetch STANDARD_VECTOR_SIZE ChunkInfo_Fetch).

(** ** Machine arithmetic without wrap-around *)

Lemma to_index_t_small z : 0 ≤ z < 2 ^ 64 → to_index_t z = z.
Proof. intros. unfold to_index_t. by apply Z.mod_small. Qed.

Lemma to_row_t_small z : - 2 ^ 63 ≤ z < 2 ^ 63 → to_row_t z = z.
Proof. intros. unfold to_row_t. rewrite Z.mod_small; lia. Qed.

Lemma to_index_t_range z : 0 ≤ to_index_t z < 2 ^ 64.
Proof. unfold to_index_t. apply Z.mod_pos_bound. lia. Qed.

Lemma to_index_t_le z : 0 ≤ z → to_index_t z ≤ z.
Proof. intros. unfold to_index_t. apply Z.mod_le; lia. Qed.

Lemma quot_div z : 0 ≤ z → z ÷ S = z / S.
Proof. intros. apply Z.quot_div_nonneg; lia. Qed.

Lemma rem_mod z : 0 ≤ z → Z.rem z S = z `mod` S.
Proof. intros. apply Z.rem_mod_nonneg; lia. Qed.

Lemma block_bounds z : 0 ≤ z → 0 ≤ z / S ≤ z ∧ (z / S) * S ≤ z < (z / S + 1) * S.
Proof.
  intros Hz.
  pose proof (Z.div_mod z S ltac:(lia)) as Hdm.
  pose proof (Z.mod_pos_bound z S vector_size_pos) as Hm.
  assert (0 ≤ z / S) by (apply Z.div_pos; lia).
  split; [split; [done|]|]; nia.
Qed.

Lemma block_unique b z : b * S ≤ z < (b + 1) * S → z / S = b.
Proof.
  intros. symmetry. apply (Z.div_unique_pos z S b (z - b * S)); lia.
Qed.

(** ** Readers: GetSelVector and Fetch *)

Lemma new_events_app m m' events :
  lock_log m' = lock_log m ++ events → new_events m m' = events.
Proof. intros Hlog. unfold new_events. rewrite Hlog. apply drop_app_length. Qed.

(** C4.  A block without an entry in the version map is fully visible:
    GetSelVector returns max_count and hands back out_positions as it got
    them, and Fetch returns true for every row of the block, for every
    transaction. *)
Theorem no_entry_fully_visible m block_index :
  0 ≤ base_row m → 0 ≤ block_index →
  info m !! block_index = None →
  (∀ transaction out_positions max_count,
     (GetSelVector m transaction block_index out_positions max_count).1
     = (max_count, out_positions)) ∧
  (∀ transaction row,
     base_row m + block_index * S ≤ row < base_row m + (block_index + 1) * S →
     row < 2 ^ 64 →
     (Fetch m transaction row).1 = true).
Proof.
  intros Hbase Hblock Hnone. split.
  - intros transaction out_positions max_count.
    unfold Storage.GetSelVector, info_find. simpl. by rewrite Hnone.
  - intros transaction row Hrow Hmax.
    unfold Storage.Fetch, info_find. simpl.
    assert (0 ≤ block_index * S) by nia.
    rewrite to_index_t_small by lia.
    rewrite (block_unique block_index) by lia.
    by rewrite Hnone.
Qed.

(** GetSelVector takes the shared lock before it looks the block up. *)
Lemma GetSelVector_locked m transaction index sel_vector max_count :
  lock_discipline false
    (new_events m (GetSelVector m transaction index sel_vector max_count).2) = true.
Proof.
  unfold Storage.GetSelVector, info_find.
  destruct (info (log GetSharedLock m) !! index) as [ci|];
    [destruct (ChunkInfo_GetSelVector ci transaction sel_vector max_count)|];
    simpl;
    rewrite (new_events_app _ _ [GetSharedLock; InfoAccess index; ReleaseLock]);
    try reflexivity; simpl; by rewrite <- !app_assoc.
Qed.

(** C9.  Fetch looks the block up in the version map without holding a
    lock: the first event of every call is an access to the map. *)
Theorem Fetch_reads_info_unlocked m transaction row :
  lock_discipline false (new_events m (Fetch m transaction row).2) = false.
Proof.
  unfold Storage.Fetch, info_find.
  set (index := to_index_t (row - base_row m) / S).
  destruct (info m !! index); simpl;
    by rewrite (new_events_app _ _ [InfoAccess index]).
Qed.

(** ** RevertAppend *)

Lemma RevertAppend_loop_erases fuel m chunk_start chunk_end :
  0 ≤ chunk_start → chunk_end < 2 ^ 64 - 1 →
  chunk_end + 1 - chunk_start ≤ Z.of_nat fuel →
  ∃ m', RevertAppend_loop fuel m chunk_start chunk_end = Some m' ∧
        base_row m' = base_row m ∧ max_row m' = max_row m ∧
        ∀ block, info m' !! block =
                 if decide (chunk_start ≤ block ≤ chunk_end) then None
                 else info m !! block.
Proof.
  revert m chunk_start.
  induction fuel as [|fuel IH]; intros m chunk_start Hstart Hend Hfuel.
  - simpl. destruct (decide (chunk_start ≤ chunk_end)); [lia|].
    exists m. repeat split.
    intros block. by rewrite decide_False by lia.
  - simpl. destruct (decide (chunk_start ≤ chunk_end)) as [Hle|Hgt].
    + rewrite to_index_t_small by lia.
      destruct (IH (info_erase chunk_start m) (chunk_start + 1))
        as (m' & Hloop & Hbase & Hmax & Hinfo); [lia..|].
      exists m'. repeat split; try done.
      intros block. rewrite Hinfo. simpl.
      destruct (decide (block = chunk_start)) as [->|Hne].
      * rewrite lookup_delete_eq.
        destruct (decide (chunk_start + 1 ≤ chunk_start ≤ chunk_end)); [lia|].
        by rewrite decide_True by lia.
      * rewrite lookup_delete_ne by done.
        destruct (decide (chunk_start + 1 ≤ block ≤ chunk_end));
          [by rewrite decide_True by lia | by rewrite decide_False by lia].
    + exists m. repeat split. intros block. by rewrite decide_False by lia.
Qed.

Lemma chunk_start_spec row_start block :
  0 ≤ row_start →
  row_start / S + (if decide (Z.rem row_start S = 0) then 0 else 1) ≤ block
  ↔ row_start ≤ block * S.
Proof.
  intros Hrow. rewrite rem_mod by done.
  pose proof (Z.div_mod row_start S ltac:(lia)) as Hdm.
  pose proof (Z.mod_pos_bound row_start S vector_size_pos) as Hm.
  destruct (decide (row_start `mod` S = 0)); split; intros; nia.
Qed.

Lemma chunk_end_spec row_end block :
  0 ≤ row_end → block ≤ row_end / S ↔ block * S ≤ row_end.
Proof.
  intros Hrow.
  pose proof (Z.div_mod row_end S ltac:(lia)) as Hdm.
  pose proof (Z.mod_pos_bound row_end S vector_size_pos) as Hm.
  split; intros; nia.
Qed.

(** C2, as the code has it.  RevertAppend erases the entry of a block if and
    only if the first row of the block lies in [row_start, row_end], and
    leaves every other entry as it was.  So the block that holds row_start
    keeps its entry when row_start is not aligned; every block fully
    contained in the range loses its entry; and the block that holds row_end
    loses its entry exactly when its first row is not before row_start,
    whether or not its last rows lie beyond row_end. *)
Theorem RevertAppend_erases_blocks_starting_in_range m row_start row_end :
  0 ≤ row_start < 2 ^ 63 → 0 ≤ row_end < 2 ^ 63 →
  ∃ m', RevertAppend S m row_start row_end = Some m' ∧
        (∀ block, info m' !! block =
                  if decide (first_row_within S block row_start row_end) then None
                  else info m !! block) ∧
        (row_start `mod` S ≠ 0 →
         info m' !! (row_start / S) = info m !! (row_start / S)) ∧
        (∀ block, fully_contained S block row_start row_end →
                  info m' !! block = None) ∧
        info m' !! (row_end / S) =
          (if decide (row_start ≤ row_end / S * S) then None
           else info m !! (row_end / S)).
Proof.
  intros Hstart Hend. unfold RevertAppend.
  rewrite !quot_div by lia.
  pose proof (block_bounds row_start ltac:(lia)) as [Hbs _].
  pose proof (block_bounds row_end ltac:(lia)) as [Hbe _].
  set (cs := row_start / S + (if decide (Z.rem row_start S = 0) then 0 else 1)).
  assert (0 ≤ cs < 2 ^ 64) by (unfold cs; destruct (decide _); lia).
  rewrite !to_index_t_small by lia.
  destruct (RevertAppend_loop_erases (Z.to_nat (row_end / S + 1 - cs))
              (log GetExclusiveLock m) cs (row_end / S))
    as (m' & Hloop & _ & _ & Hinfo); [lia..|].
  rewrite Hloop. simpl.
  assert (Hall : ∀ block, info m' !! block =
            if decide (first_row_within S block row_start row_end) then None
            else info m !! block).
  { intros block. rewrite Hinfo. simpl. unfold first_row_within.
    pose proof (chunk_start_spec row_start block ltac:(lia)) as Hcs.
    pose proof (chunk_end_spec row_end block ltac:(lia)) as Hce.
    fold cs in Hcs.
    destruct (decide (cs ≤ block ≤ row_end / S));
      [rewrite decide_True | rewrite decide_False]; tauto. }
  eexists. split; [reflexivity|]. split; [exact Hall|].
  split; [|split].
  - intros Hmis. simpl. rewrite Hall. rewrite decide_False; [done|].
    unfold first_row_within.
    pose proof (Z.div_mod row_start S ltac:(lia)).
    pose proof (Z.mod_pos_bound row_start S vector_size_pos). nia.
  - intros block [Hfirst Hlast]. rewrite Hall. rewrite decide_True; [done|].
    unfold first_row_within. lia.
  - rewrite Hall. unfold first_row_within.
    pose proof (Z.div_mod row_end S ltac:(lia)).
    pose proof (Z.mod_pos_bound row_end S vector_size_pos).
    destruct (decide (row_start ≤ row_end / S * S));
      [rewrite decide_True | rewrite decide_False]; [done|nia|done|nia].
Qed.

(** ** The state machine of the entries *)

Lemma entry_state_log e m block : entry_state (log e m) block = entry_state m block.
Proof. done. Qed.

Lemma entry_state_alter f k m block :
  (∀ ci, info_type (f ci) = info_type ci) →
  entry_state (set_info (alter f k) m) block = entry_state m block.
Proof.
  intros Hf. unfold entry_state. simpl. rewrite lookup_alter.
  case_decide; [subst|done]. destruct (info m !! block); simpl; by rewrite ?Hf.
Qed.

Lemma ChunkInfo_Delete_type t rows ci :
  info_type (ChunkInfo_Delete t rows ci) = info_type ci.
Proof. by destruct ci. Qed.

Lemma stamp_type commit_id idx ci : info_type (stamp commit_id idx ci) = info_type ci.
Proof. by destruct ci. Qed.

Lemma Append_transition_trans a b c :
  Append_transition a b → Append_transition b c → Append_transition a c.
Proof. unfold Append_transition. destruct a, b, c; intuition congruence. Qed.

Lemma Delete_transition_trans a b c :
  Delete_transition a b → Delete_transition b c → Delete_transition a c.
Proof. unfold Delete_transition. destruct a, b, c; intuition congruence. Qed.

Lemma RevertAppend_transition_trans a b c :
  RevertAppend_transition a b → RevertAppend_transition b c → RevertAppend_transition a c.
Proof. unfold RevertAppend_transition. destruct a, b, c; intuition congruence. Qed.

Lemma GetInsertInfo_transition m chunk_idx block :
  Append_transition (entry_state m block) (entry_state (GetInsertInfo S m chunk_idx) block).
Proof.
  unfold GetInsertInfo, info_find, Append_transition, entry_state. simpl.
  destruct (info m !! chunk_idx) as [[s d|s d ins]|] eqn:Hk; simpl;
    try (by left);
    (destruct (decide (block = chunk_idx)) as [->|Hne];
     [rewrite lookup_insert_eq, Hk; simpl; auto
     |rewrite lookup_insert_ne by done; by left]).
Qed.

Lemma Append_loop_transition n commit_id m chunk_idx idx_in_chunk block :
  Append_transition (entry_state m block)
    (entry_state (Append_loop S n commit_id m chunk_idx idx_in_chunk) block).
Proof.
  revert m chunk_idx idx_in_chunk.
  induction n as [|n IH]; intros m chunk_idx idx_in_chunk; simpl.
  - by left.
  - assert (Hstamp : entry_state
              (set_info (alter (stamp commit_id idx_in_chunk) chunk_idx) m) block
            = entry_state m block)
      by (apply entry_state_alter, stamp_type).
    case_decide.
    + eapply Append_transition_trans; [|apply IH].
      rewrite <- Hstamp. apply GetInsertInfo_transition.
    + rewrite <- Hstamp. apply IH.
Qed.

Lemma Flush_entry_state s s' block :
  Flush s = Ok s' → entry_state (manager s') block = entry_state (manager s) block.
Proof.
  unfold Flush. case_decide; [by intros [= <-]|].
  destruct (current_info s), (chunk_row s); try done.
  intros [= <-]. simpl. apply entry_state_alter, ChunkInfo_Delete_type.
Qed.

Lemma VersionDeleteState_Delete_transition s row_id s' block :
  VersionDeleteState_Delete S s row_id = Ok s' →
  Delete_transition (entry_state (manager s) block) (entry_state (manager s') block).
Proof.
  unfold VersionDeleteState_Delete.
  set (chunk_idx := to_index_t (row_id ÷ S)).
  case_decide as Hchunk; simpl.
  - destruct (Flush s) as [s1|] eqn:Hflush; simpl; [|done].
    rewrite <- (Flush_entry_state _ _ block Hflush).
    unfold info_find.
    case_decide; [|done]. intros [= <-]. simpl.
    unfold Delete_transition, entry_state; simpl.
    destruct (info (manager s1) !! chunk_idx) eqn:Hk; simpl; [by left|].
    destruct (decide (block = chunk_idx)) as [->|Hne].
    + rewrite lookup_insert_eq, Hk. simpl. auto.
    + rewrite lookup_insert_ne by done. by left.
  - case_decide; [|done]. intros [= <-]. simpl. by left.
Qed.

Lemma foldlM_Delete_transition ids s s' block :
  foldlM (VersionDeleteState_Delete S) ids s = Ok s' →
  Delete_transition (entry_state (manager s) block) (entry_state (manager s') block).
Proof.
  revert s. induction ids as [|r ids IH]; intros s; simpl.
  - intros [= <-]. by left.
  - destruct (VersionDeleteState_Delete S s r) as [s1|] eqn:Hstep; simpl; [|done].
    intros Hrest. eapply Delete_transition_trans; [|by apply IH].
    by eapply VersionDeleteState_Delete_transition.
Qed.

Lemma RevertAppend_loop_transition fuel m chunk_start chunk_end m' block :
  RevertAppend_loop fuel m chunk_start chunk_end = Some m' →
  RevertAppend_transition (entry_state m block) (entry_state m' block).
Proof.
  revert m chunk_start. induction fuel as [|fuel IH]; intros m chunk_start; simpl.
  - case_decide; [done|]. intros [= <-]. by left.
  - case_decide; [|intros [= <-]; by left].
    intros Hloop. eapply RevertAppend_transition_trans; [|by eapply IH].
    unfold RevertAppend_transition, entry_state. simpl.
    destruct (decide (block = chunk_start)) as [->|Hne].
    + rewrite lookup_delete_eq. by right.
    + rewrite lookup_delete_ne by done. by left.
Qed.

(** C7, as the code has it.  Every operation moves the entry of every block
    along the state machine: Append leaves it, creates an insert-info or
    promotes a delete-info to an insert-info; Delete leaves it or creates a
    delete-info; RevertAppend leaves it or erases it, whatever its kind.  No
    insert-info becomes a delete-info, only RevertAppend makes an entry
    absent, and Append and Delete never remove a delete-info without
    promoting it. *)
Theorem entry_state_machine op m m' block :
  step S op m = Some m' →
  transition op (entry_state m block) (entry_state m' block).
Proof.
  destruct op as [transaction row_start count commit_id
                 |mem transaction row_ids|row_start row_end]; simpl.
  - intros [= <-]. unfold Append.
    rewrite entry_state_log.
    eapply Append_transition_trans; [|apply Append_loop_transition].
    rewrite <- (entry_state_log GetExclusiveLock m block).
    apply GetInsertInfo_transition.
  - unfold Delete.
    destruct (foldlM _ _ _) as [s1|] eqn:Hfold; simpl; [|done].
    destruct (Flush s1) as [s2|] eqn:Hflush; simpl; [|done].
    intros [= <-]. rewrite entry_state_log.
    rewrite (Flush_entry_state _ _ block Hflush).
    apply (foldlM_Delete_transition _ _ _ block) in Hfold. exact Hfold.
  - unfold RevertAppend.
    destruct (RevertAppend_loop _ _ _ _) as [m1|] eqn:Hloop; simpl; [|done].
    intros [= <-]. rewrite entry_state_log.
    apply (RevertAppend_loop_transition _ _ _ _ _ block) in Hloop. exact Hloop.
Qed.

(** ** Append *)

Lemma keeps_entries_refl m : keeps_entries m m.
Proof. intros block ci Hci. by exists ci. Qed.

Lemma keeps_entries_trans m1 m2 m3 :
  keeps_entries m1 m2 → keeps_entries m2 m3 → keeps_entries m1 m3.
Proof.
  intros H12 H23 block ci Hci.
  destruct (H12 _ _ Hci) as (ci2 & Hci2 & Hs2 & Hd2).
  destruct (H23 _ _ Hci2) as (ci3 & Hci3 & Hs3 & Hd3).
  exists ci3. repeat split; congruence.
Qed.

Lemma GetInsertInfo_keeps_entries m chunk_idx :
  keeps_entries m (GetInsertInfo S m chunk_idx).
Proof.
  intros block ci Hci. unfold GetInsertInfo, info_find. simpl.
  destruct (info m !! chunk_idx) as [[s d|s d ins]|] eqn:Hk; simpl.
  - destruct (decide (block = chunk_idx)) as [->|Hne].
    + rewrite lookup_insert_eq. eexists. split; [done|].
      rewrite Hk in Hci. by injection Hci as <-.
    + rewrite lookup_insert_ne by done. by exists ci.
  - by exists ci.
  - destruct (decide (block = chunk_idx)) as [->|Hne]; [congruence|].
    rewrite lookup_insert_ne by done. by exists ci.
Qed.

Lemma stamp_keeps_entries commit_id idx_in_chunk chunk_idx m :
  keeps_entries m (set_info (alter (stamp commit_id idx_in_chunk) chunk_idx) m).
Proof.
  intros block ci Hci. simpl. rewrite lookup_alter.
  case_decide; [subst|by exists ci].
  rewrite Hci. simpl. eexists. split; [done|]. by destruct ci.
Qed.

Lemma Append_loop_keeps_entries n commit_id m chunk_idx idx_in_chunk :
  keeps_entries m (Append_loop S n commit_id m chunk_idx idx_in_chunk).
Proof.
  revert m chunk_idx idx_in_chunk.
  induction n as [|n IH]; intros m chunk_idx idx_in_chunk; simpl.
  - apply keeps_entries_refl.
  - eapply keeps_entries_trans; [apply stamp_keeps_entries|].
    case_decide; [|apply IH].
    eapply keeps_entries_trans; [apply GetInsertInfo_keeps_entries|apply IH].
Qed.

Lemma GetInsertInfo_stamped m chunk_idx block offset commit_id :
  stamped m block offset commit_id →
  stamped (GetInsertInfo S m chunk_idx) block offset commit_id.
Proof.
  intros (s & d & ins & Hb & Ho). unfold GetInsertInfo, info_find, stamped. simpl.
  destruct (info m !! chunk_idx) as [[s' d'|s' d' ins']|] eqn:Hk; simpl;
    [|by eauto|];
    (destruct (decide (block = chunk_idx)) as [->|Hne]; [congruence|];
     rewrite lookup_insert_ne by done; eauto).
Qed.

Lemma stamp_stamped m chunk_idx idx_in_chunk block offset commit_id :
  stamped m block offset commit_id →
  stamped (set_info (alter (stamp commit_id idx_in_chunk) chunk_idx) m)
    block offset commit_id.
Proof.
  intros (s & d & ins & Hb & Ho). unfold stamped. simpl. rewrite lookup_alter.
  case_decide; [subst|by eauto].
  rewrite Hb. simpl. do 3 eexists. split; [done|].
  destruct (decide (offset = idx_in_chunk)) as [->|Hne];
    [by rewrite lookup_insert_eq | by rewrite lookup_insert_ne].
Qed.

Lemma Append_loop_stamped n m chunk_idx idx_in_chunk block offset commit_id :
  stamped m block offset commit_id →
  stamped (Append_loop S n commit_id m chunk_idx idx_in_chunk) block offset commit_id.
Proof.
  revert m chunk_idx idx_in_chunk.
  induction n as [|n IH]; intros m chunk_idx idx_in_chunk Hst; simpl; [done|].
  case_decide; apply IH; [apply GetInsertInfo_stamped|]; by apply stamp_stamped.
Qed.

Lemma GetInsertInfo_has_insert_info m chunk_idx :
  has_insert_info (GetInsertInfo S m chunk_idx) chunk_idx.
Proof.
  unfold GetInsertInfo, info_find, has_insert_info. simpl.
  destruct (info m !! chunk_idx) as [[s d|s d ins]|] eqn:Hk; simpl;
    rewrite ?lookup_insert_eq; eauto.
Qed.

Lemma stamp_slot m chunk_idx idx_in_chunk commit_id :
  has_insert_info m chunk_idx →
  let m' := set_info (alter (stamp commit_id idx_in_chunk) chunk_idx) m in
  stamped m' chunk_idx idx_in_chunk commit_id ∧ has_insert_info m' chunk_idx.
Proof.
  intros (s & d & ins & Hb). unfold stamped, has_insert_info. simpl.
  rewrite lookup_alter, decide_True by done. rewrite Hb. simpl.
  split; [|by eauto]. do 3 eexists. split; [done|]. apply lookup_insert_eq.
Qed.

Lemma Append_loop_stamps n commit_id m chunk_idx idx_in_chunk :
  S < 2 ^ 63 →
  0 ≤ chunk_idx → 0 ≤ idx_in_chunk < S →
  chunk_idx * S + idx_in_chunk + Z.of_nat n < 2 ^ 63 →
  has_insert_info m chunk_idx →
  ∀ i, 0 ≤ i < Z.of_nat n →
    stamped (Append_loop S n commit_id m chunk_idx idx_in_chunk)
      ((chunk_idx * S + idx_in_chunk + i) / S)
      ((chunk_idx * S + idx_in_chunk + i) `mod` S) commit_id.
Proof.
  intros HS. revert m chunk_idx idx_in_chunk.
  induction n as [|n IH]; intros m chunk_idx idx_in_chunk Hc Hj Hmax Hins i Hi;
    [lia|].
  simpl.
  destruct (stamp_slot m chunk_idx idx_in_chunk commit_id Hins) as [Hst Hins'].
  rewrite to_index_t_small by lia.
  assert (Hhere : (chunk_idx * S + idx_in_chunk) / S = chunk_idx
                  ∧ (chunk_idx * S + idx_in_chunk) `mod` S = idx_in_chunk).
  { assert (Hd : (chunk_idx * S + idx_in_chunk) / S = chunk_idx)
      by (apply block_unique; lia).
    split; [done|]. rewrite Z.mod_eq by lia. rewrite Hd. lia. }
  destruct Hhere as [Hdiv Hmod].
  case_decide as Hnext.
  - assert (chunk_idx + 1 < 2 ^ 64) by nia.
    rewrite to_index_t_small by lia.
    destruct (decide (i = 0)) as [->|Hpos].
    + rewrite Z.add_0_r, Hdiv, Hmod.
      by apply Append_loop_stamped, GetInsertInfo_stamped.
    + replace (chunk_idx * S + idx_in_chunk + i)
        with ((chunk_idx + 1) * S + 0 + (i - 1)) by lia.
      apply IH; [lia|lia|lia|apply GetInsertInfo_has_insert_info|lia].
  - destruct (decide (i = 0)) as [->|Hpos].
    + rewrite Z.add_0_r, Hdiv, Hmod. by apply Append_loop_stamped.
    + replace (chunk_idx * S + idx_in_chunk + i)
        with (chunk_idx * S + (idx_in_chunk + 1) + (i - 1)) by lia.
      apply IH; [lia|lia|lia|done|lia].
Qed.

Lemma Append_loop_max_row n commit_id m chunk_idx idx_in_chunk :
  max_row (Append_loop S n commit_id m chunk_idx idx_in_chunk) = max_row m.
Proof.
  revert m chunk_idx idx_in_chunk.
  induction n as [|n IH]; intros m chunk_idx idx_in_chunk; simpl; [done|].
  case_decide; rewrite IH; [|done].
  unfold GetInsertInfo, info_find. simpl.
  by destruct (info m !! to_index_t (chunk_idx + 1)) as [[]|]; simpl;
    repeat (rewrite lookup_alter; case_decide; simpl);
    repeat case_match.
Qed.

(** C6.  Append stamps each of the count row slots from row_start with
    commit_id, in the insert-info of the block that holds the row; a block
    that held a delete-info now holds an insert-info with the same first row
    and the same deleted offsets; max_row has advanced by count. *)
Theorem Append_stamps_rows m transaction row_start count commit_id :
  S < 2 ^ 63 →
  0 ≤ row_start → 0 ≤ count → row_start + count < 2 ^ 63 →
  0 ≤ max_row m → max_row m + count < 2 ^ 64 →
  let m' := Append S m transaction row_start count commit_id in
  (∀ i, 0 ≤ i < count →
     stamped m' ((row_start + i) / S) ((row_start + i) `mod` S) commit_id)
  ∧ (∀ i s d, 0 ≤ i < count →
       info m !! ((row_start + i) / S) = Some (ChunkDeleteInfo s d) →
       ∃ ins, info m' !! ((row_start + i) / S) = Some (ChunkInsertInfo s d ins))
  ∧ max_row m' = max_row m + count.
Proof.
  intros HS Hstart Hcount Hend Hmax0 Hmax m'.
  pose proof (block_bounds row_start Hstart) as [Hb Hrow].
  assert (Hidx : to_index_t (row_start ÷ S) = row_start / S)
    by (rewrite quot_div by done; apply to_index_t_small; lia).
  assert (Hoff : to_index_t (row_start - to_index_t (to_index_t (row_start ÷ S) * S))
                 = row_start - row_start / S * S).
  { rewrite Hidx. rewrite (to_index_t_small (_ * _)) by nia.
    apply to_index_t_small. lia. }
  assert (Hstamped : ∀ i, 0 ≤ i < count →
    stamped m' ((row_start + i) / S) ((row_start + i) `mod` S) commit_id).
  { intros i Hi. unfold m', Append. rewrite Hoff, Hidx.
    unfold stamped. simpl. fold (stamped
      (Append_loop S (Z.to_nat count) commit_id
         (GetInsertInfo S (log GetExclusiveLock m) (row_start / S))
         (row_start / S) (row_start - row_start / S * S))
      ((row_start + i) / S) ((row_start + i) `mod` S) commit_id).
    replace (row_start + i)
      with (row_start / S * S + (row_start - row_start / S * S) + i) by lia.
    apply Append_loop_stamps;
      [done|lia|lia|lia|apply GetInsertInfo_has_insert_info|lia]. }
  split; [exact Hstamped|]. split.
  - intros i s d Hi Hdel.
    destruct (Hstamped i Hi) as (s' & d' & ins & Hinfo & _).
    exists ins. rewrite Hinfo.
    assert (Hkeep : keeps_entries m m').
    { unfold m', Append. intros block ci Hci. simpl.
      eapply keeps_entries_trans;
        [apply (GetInsertInfo_keeps_entries (log GetExclusiveLock m))
        |apply Append_loop_keeps_entries|exact Hci]. }
    destruct (Hkeep _ _ Hdel) as (ci' & Hci' & Hs & Hd).
    rewrite Hinfo in Hci'. injection Hci' as <-. simpl in Hs, Hd. by subst.
  - unfold m', Append. simpl. rewrite Append_loop_max_row.
    assert (Hget : max_row (GetInsertInfo S (log GetExclusiveLock m)
                              (to_index_t (row_start ÷ S))) = max_row m)
      by (unfold GetInsertInfo, info_find; simpl; by repeat case_match).
    rewrite Hget. apply to_index_t_small. lia.
Qed.

(** ** Delete: the bounds of the rows array *)

Lemma Flush_count s :
  match Flush s with
  | Ok s' => rows s' = rows s ∧ (del_count s' = 0 ∨ s' = s)
  | Throw e => e ≠ OutOfBounds
  end.
Proof.
  unfold Flush. case_decide; [by auto|].
  destruct (current_info s), (chunk_row s); simpl; auto.
Qed.

Lemma VersionDeleteState_Delete_count s row_id :
  length (rows s) = Z.to_nat S → 0 ≤ del_count s < S →
  match VersionDeleteState_Delete S s row_id with
  | Ok s' => 0 ≤ del_count s' ≤ del_count s + 1 ∧ length (rows s') = Z.to_nat S
  | Throw e => e ≠ OutOfBounds
  end.
Proof.
  intros Hlen Hcount. unfold VersionDeleteState_Delete.
  set (chunk_idx := to_index_t (row_id ÷ S)).
  case_decide as Hchunk; simpl.
  - pose proof (Flush_count s) as Hflush.
    destruct (Flush s) as [s1|e]; simpl; [|done].
    destruct Hflush as [Hrows Hc]. unfold info_find. simpl.
    assert (0 ≤ del_count s1 ≤ del_count s) by (destruct Hc as [->| ->]; lia).
    rewrite Hrows, Hlen, decide_True by lia. simpl.
    pose proof (to_index_t_range (del_count s1 + 1)).
    pose proof (to_index_t_le (del_count s1 + 1) ltac:(lia)).
    rewrite length_insert. split; [lia|done].
  - rewrite Hlen, decide_True by lia. simpl.
    pose proof (to_index_t_range (del_count s + 1)).
    pose proof (to_index_t_le (del_count s + 1) ltac:(lia)).
    rewrite length_insert. split; [lia|done].
Qed.

Lemma foldlM_Delete_count ids s :
  length (rows s) = Z.to_nat S → 0 ≤ del_count s →
  del_count s + Z.of_nat (length ids) ≤ S →
  match foldlM (VersionDeleteState_Delete S) ids s with
  | Ok s' => 0 ≤ del_count s' ≤ del_count s + Z.of_nat (length ids)
             ∧ length (rows s') = Z.to_nat S
  | Throw e => e ≠ OutOfBounds
  end.
Proof.
  revert s. induction ids as [|r ids IH]; intros s Hlen Hc Hroom; simpl.
  - split; [lia|done].
  - simpl in Hroom.
    pose proof (VersionDeleteState_Delete_count s r Hlen ltac:(lia)) as Hstep.
    destruct (VersionDeleteState_Delete S s r) as [s1|e]; simpl; [|done].
    destruct Hstep as [Hc1 Hlen1].
    specialize (IH s1 Hlen1 ltac:(lia) ltac:(lia)).
    destruct (foldlM _ ids s1); [|done].
    split; [lia|tauto].
Qed.

(** C10.  When the row_ids vector holds at most STANDARD_VECTOR_SIZE ids,
    count never exceeds the number of ids processed so far, hence never
    STANDARD_VECTOR_SIZE, and no write rows[count++] of a Delete call leaves
    the rows array. *)
Theorem Delete_rows_in_bounds mem m txn row_ids :
  count row_ids ≤ S →
  (∀ processed s,
     processed `prefix_of` Delete_row_ids mem m row_ids →
     foldlM (VersionDeleteState_Delete S) processed
       (new_VersionDeleteState S (log GetExclusiveLock m) txn (base_row m)) = Ok s →
     0 ≤ del_count s ≤ Z.of_nat (length processed) ∧ del_count s ≤ S)
  ∧ Delete S mem m txn row_ids ≠ Throw OutOfBounds.
Proof.
  intros Hsize.
  assert (Hlen : Z.of_nat (length (Delete_row_ids mem m row_ids)) ≤ S).
  { unfold Delete_row_ids, Exec_indices. rewrite !length_fmap, length_seqZ. lia. }
  set (s0 := new_VersionDeleteState S (log GetExclusiveLock m) txn (base_row m)).
  assert (Hrows0 : length (rows s0) = Z.to_nat S) by apply length_replicate.
  split.
  - intros processed s Hpre Hfold.
    apply prefix_length in Hpre.
    pose proof (foldlM_Delete_count processed s0 Hrows0 ltac:(done)
                  ltac:(simpl; lia)) as Hcount.
    fold s0 in Hfold. rewrite Hfold in Hcount. simpl in Hcount. lia.
  - unfold Delete. cbv zeta.
    change (new_VersionDeleteState _ _ _ _) with s0.
    pose proof (foldlM_Delete_count (Delete_row_ids mem m row_ids) s0 Hrows0
                  ltac:(done) ltac:(simpl; lia)) as Hcount.
    destruct (foldlM _ _ s0) as [s1|e]; simpl; [|by intros [= ->]].
    pose proof (Flush_count s1) as Hflush.
    destruct (Flush s1) as [s2|e]; simpl; [done|by intros [= ->]].
Qed.

(** ** Delete: one undo record per run *)

Lemma runs_head r ids : ∃ offsets rs, runs S (r :: ids) = (r / S, offsets) :: rs.
Proof.
  simpl. destruct (runs S ids) as [|[block offsets] rs]; [by eauto|].
  case_decide; subst; eauto.
Qed.

Lemma runs_same_block pre block :
  pre ≠ [] → (∀ x, x ∈ pre → x / S = block) →
  runs S pre = [(block, (λ r, r `mod` S) <$> pre)].
Proof.
  induction pre as [|x pre IH]; intros Hne Hblock; [done|].
  assert (Hx : x / S = block) by (apply Hblock; left).
  destruct pre as [|y pre]; simpl; [by rewrite Hx|].
  simpl in IH. rewrite IH; [|done|intros z Hz; apply Hblock; by right].
  by rewrite decide_True by done.
Qed.

Lemma runs_app_change pre block r ids :
  pre ≠ [] → (∀ x, x ∈ pre → x / S = block) → r / S ≠ block →
  runs S (pre ++ r :: ids) = (block, (λ r, r `mod` S) <$> pre) :: runs S (r :: ids).
Proof.
  intros Hne Hblock Hr.
  destruct (runs_head r ids) as (offsets & rs & Hruns).
  induction pre as [|x pre IH]; [done|].
  assert (Hx : x / S = block) by (apply Hblock; left).
  destruct pre as [|y pre].
  - change ([x] ++ r :: ids) with (x :: r :: ids).
    change (runs S (x :: r :: ids)) with
      (match runs S (r :: ids) with
       | (block, offsets) :: rs =>
           if decide (x / S = block) then (block, x `mod` S :: offsets) :: rs
           else (x / S, [x `mod` S]) :: (block, offsets) :: rs
       | [] => [(x / S, [x `mod` S])]
       end).
    rewrite Hruns. rewrite decide_False by congruence. by rewrite Hx.
  - change ((x :: y :: pre) ++ r :: ids) with (x :: ((y :: pre) ++ r :: ids)).
    change (runs S (x :: ((y :: pre) ++ r :: ids))) with
      (match runs S ((y :: pre) ++ r :: ids) with
       | (block, offsets) :: rs =>
           if decide (x / S = block) then (block, x `mod` S :: offsets) :: rs
           else (x / S, [x `mod` S]) :: (block, offsets) :: rs
       | [] => [(x / S, [x `mod` S])]
       end).
    rewrite IH; [|done|intros z Hz; apply Hblock; by right].
    by rewrite decide_True by done.
Qed.

Lemma chunk_idx_value base r :
  0 ≤ base → valid_row_id base r → to_index_t (r ÷ S) = r / S.
Proof.
  intros Hbase [Hr Hmax]. rewrite quot_div by done.
  pose proof (block_bounds r Hr). apply to_index_t_small. lia.
Qed.

Lemma idx_in_chunk_value base r :
  0 ≤ base → valid_row_id base r →
  to_row_t (to_index_t (r - to_index_t (to_index_t (r ÷ S) * S))) = r `mod` S.
Proof.
  intros Hbase Hvalid. rewrite (chunk_idx_value base) by done.
  destruct Hvalid as [Hr Hmax].
  pose proof (block_bounds r Hr) as [Hb Hrow].
  rewrite (to_index_t_small (_ * _)) by lia.
  replace (r `mod` S) with (r - r / S * S) by (rewrite Z.mod_eq; lia).
  rewrite to_index_t_small by lia. apply to_row_t_small. lia.
Qed.

Lemma Flush_accumulated base s pre :
  0 ≤ base → accumulating S base s pre → Forall (valid_row_id base) pre →
  ∃ s', Flush s = Ok s'
        ∧ undo_buffer (transaction s')
          = undo_buffer (transaction s) ++ (undo_of_run S base <$> runs S pre)
        ∧ rows s' = rows s ∧ del_count s' = 0
        ∧ del_base_row s' = del_base_row s.
Proof.
  intros Hbase (Hcount & Hrows & Hlen & Hb & Hcur) Hvalid. unfold Flush.
  destruct pre as [|r pre].
  - rewrite decide_True by done. exists s. simpl. by rewrite app_nil_r.
  - rewrite decide_False by (rewrite Hcount; simpl; lia).
    destruct Hcur as (Hchunk & Hinfo & Hrow & Hblock).
    rewrite Hinfo, Hrow.
    rewrite (runs_same_block (r :: pre) (r / S)) by done.
    eexists. split; [reflexivity|]. cbn [transaction undo_buffer PushDelete rows
      del_count del_base_row fmap list_fmap undo_of_run fst snd].
    split; [|done].
    rewrite Hcount, Nat2Z.id. rewrite Hrows.
    apply Forall_cons in Hvalid as [[Hr Hmax] _].
    pose proof (block_bounds r Hr).
    rewrite Hb, to_index_t_small by lia. done.
Qed.

Lemma write_row (rows_ : list Z) (n : nat) (v : Z) :
  (n < length rows_)%nat →
  take (Datatypes.S n) (<[n := v]> rows_) = take n rows_ ++ [v].
Proof.
  intros Hn. rewrite (take_S_r _ _ v) by (by apply list_lookup_insert_eq).
  by rewrite take_insert_ge by lia.
Qed.

Lemma Delete_same_block base s pre r :
  S < 2 ^ 63 → 0 ≤ base →
  accumulating S base s pre → valid_row_id base r →
  (∃ x pre', pre = x :: pre' ∧ r / S = x / S) →
  Z.of_nat (length pre) < S →
  ∃ s', VersionDeleteState_Delete S s r = Ok s'
        ∧ accumulating S base s' (pre ++ [r])
        ∧ transaction s' = transaction s.
Proof.
  intros HS Hbase (Hcount & Hrows & Hlen & Hb & Hcur) Hvalid
    (x & pre' & -> & Hsame) Hroom.
  destruct Hcur as (Hchunk & Hinfo & Hrow & Hblock).
  unfold VersionDeleteState_Delete.
  rewrite (idx_in_chunk_value base), (chunk_idx_value base) by done.
  rewrite decide_False by (rewrite Hchunk; intros Hne; by apply Hne).
  cbn [mbind Result_bind]. rewrite decide_True by lia.
  eexists. split; [reflexivity|]. split; [|done].
  unfold accumulating; cbn [rows del_count del_base_row current_chunk current_info chunk_row].
  rewrite Hcount, Nat2Z.id, length_app, length_insert.
  rewrite to_index_t_small by lia.
  split; [simpl; lia|].
  split.
  { replace (length (x :: pre') + length [r])%nat
      with (Datatypes.S (length (x :: pre'))) by (simpl; lia).
    rewrite write_row by lia. by rewrite Hrows, fmap_app. }
  repeat split; try done.
  intros y [Hy|Hy]%elem_of_app; [by apply Hblock|].
  apply list_elem_of_singleton in Hy. by subst.
Qed.

Lemma Delete_block_change base s pre r :
  0 < S → 0 ≤ base →
  accumulating S base s pre → Forall (valid_row_id base) pre → valid_row_id base r →
  match pre with [] => True | x :: _ => r / S ≠ x / S end →
  ∃ s', VersionDeleteState_Delete S s r = Ok s'
        ∧ accumulating S base s' [r]
        ∧ undo_buffer (transaction s')
          = undo_buffer (transaction s) ++ (undo_of_run S base <$> runs S pre).
Proof.
  intros HS Hbase Hacc Hpre Hvalid Hchange.
  destruct (Flush_accumulated base s pre Hbase Hacc Hpre)
    as (s1 & Hflush & Hundo & Hrows1 & Hcount1 & Hbase1).
  destruct Hacc as (Hcount & Hrows & Hlen & Hb & Hcur).
  unfold VersionDeleteState_Delete.
  rewrite (idx_in_chunk_value base), (chunk_idx_value base) by done.
  assert (Hne : r / S ≠ current_chunk s).
  { destruct Hvalid as [Hr Hmax]. pose proof (block_bounds r Hr).
    destruct pre as [|x pre].
    - rewrite Hcur. unfold to_index_t. change ((-1) `mod` 2 ^ 64) with (2 ^ 64 - 1). lia.
    - destruct Hcur as (-> & _). done. }
  rewrite decide_True by done. rewrite Hflush.
  cbn [mbind Result_bind info_find rows del_count].
  rewrite Hcount1, Hrows1, decide_True by lia.
  eexists. split; [reflexivity|]. split; [|done].
  unfold accumulating; cbn [rows del_count del_base_row current_chunk current_info chunk_row].
  destruct Hvalid as [Hr Hmax]. pose proof (block_bounds r Hr).
  rewrite (to_index_t_small (_ * _)) by lia.
  split; [done|]. split.
  { change (Z.to_nat 0) with 0%nat. change (length [r]) with 1%nat.
    rewrite write_row by lia. done. }
  rewrite length_insert. repeat split; try done; try congruence.
  intros y Hy. apply list_elem_of_singleton in Hy. by subst.
Qed.

Lemma Delete_runs base ids :
  S < 2 ^ 63 → 0 ≤ base →
  ∀ pre s,
    accumulating S base s pre →
    Forall (valid_row_id base) (pre ++ ids) →
    Z.of_nat (length pre) + Z.of_nat (length ids) ≤ S →
    ∃ s', foldlM (VersionDeleteState_Delete S) ids s ≫= Flush = Ok s'
          ∧ undo_buffer (transaction s')
            = undo_buffer (transaction s) ++ (undo_of_run S base <$> runs S (pre ++ ids)).
Proof.
  intros HS Hbase. induction ids as [|r ids IH]; intros pre s Hacc Hvalid Hroom.
  - rewrite app_nil_r in *. simpl.
    destruct (Flush_accumulated base s pre Hbase Hacc Hvalid) as (s' & Hflush & Hundo & _).
    by exists s'.
  - apply Forall_app in Hvalid as Hv. destruct Hv as [Hpre Hv].
    apply Forall_cons in Hv as [Hr Hids].
    simpl in Hroom.
    assert (Hcase : (∃ x pre', pre = x :: pre' ∧ r / S = x / S)
                    ∨ match pre with [] => True | x :: _ => r / S ≠ x / S end).
    { destruct pre as [|x pre']; [by right|].
      destruct (decide (r / S = x / S)); [left; eauto|by right]. }
    destruct Hcase as [Hsame|Hchange].
    + destruct (Delete_same_block base s pre r HS Hbase Hacc Hr Hsame ltac:(lia))
        as (s1 & Hstep & Hacc1 & Htxn).
      destruct (IH (pre ++ [r]) s1 Hacc1) as (s' & Hrest & Hundo).
      { by rewrite <- app_assoc. }
      { rewrite length_app. simpl. lia. }
      exists s'. simpl. rewrite Hstep. simpl. split; [exact Hrest|].
      rewrite Hundo, Htxn. by rewrite <- app_assoc.
    + destruct (Delete_block_change base s pre r vector_size_pos Hbase Hacc Hpre Hr Hchange)
        as (s1 & Hstep & Hacc1 & Hundo1).
      destruct (IH [r] s1 Hacc1) as (s' & Hrest & Hundo).
      { by apply Forall_cons. }
      { simpl. lia. }
      exists s'. simpl. rewrite Hstep. simpl. split; [exact Hrest|].
      rewrite Hundo, Hundo1, <- app_assoc. f_equal.
      rewrite <- fmap_app. f_equal.
      destruct pre as [|x pre']; [done|].
      destruct Hacc as (_ & _ & _ & _ & _ & _ & _ & Hblock).
      rewrite (runs_same_block (x :: pre') (x / S)) by done.
      by rewrite (runs_app_change (x :: pre') (x / S)) by done.
Qed.

(** The runs of [runs] are the maximal runs: they list every id once and in
    order, each under the block of the id, none is empty and two neighbours
    are runs of different blocks. *)
Lemma runs_flatten ids :
  (runs S ids ≫= λ run, (λ offset, (run.1, offset)) <$> run.2)
  = (λ r, (r / S, r `mod` S)) <$> ids.
Proof.
  induction ids as [|r ids IH]; [done|].
  rewrite fmap_cons, <- IH. simpl.
  destruct (runs S ids) as [|[block offsets] rs]; [done|].
  case_decide; subst; done.
Qed.

Lemma runs_nonempty ids run : run ∈ runs S ids → run.2 ≠ [].
Proof.
  revert run. induction ids as [|r ids IH]; intros run; simpl; [by intros ?%elem_of_nil|].
  destruct (runs S ids) as [|[block offsets] rs]; simpl in *.
  - intros ->%list_elem_of_singleton. done.
  - case_decide; subst.
    + intros [->|Hin]%elem_of_cons; [done|]. apply IH. by right.
    + intros [->|Hin]%elem_of_cons; [done|]. by apply IH.
Qed.

Lemma runs_neighbours_differ ids i run1 run2 :
  runs S ids !! i = Some run1 → runs S ids !! Datatypes.S i = Some run2 →
  run1.1 ≠ run2.1.
Proof.
  revert i run1 run2. induction ids as [|r ids IH]; intros i run1 run2; simpl; [done|].
  destruct (runs S ids) as [|[block offsets] rs]; simpl in *; [done|].
  case_decide; subst.
  - destruct i as [|i]; simpl.
    + intros [= <-] Hrs. simpl. by apply (IH 0%nat (r / S, offsets) run2).
    + intros H1 H2. by apply (IH (Datatypes.S i) run1 run2).
  - destruct i as [|i]; simpl.
    + by intros [= <-] [= <-].
    + intros H1 H2. by apply (IH i run1 run2).
Qed.

(** C3.  Delete pushes exactly one undo record per maximal run of
    consecutive row ids of one block, in the order of the runs: each record
    carries the block, the offsets of the run and the absolute first row of
    the block, and the record of the last run comes from the final Flush. *)
Theorem Delete_pushes_one_undo_per_run mem m txn row_ids :
  S < 2 ^ 63 → 0 ≤ base_row m → count row_ids ≤ S →
  Forall (λ i, base_row m ≤ cells mem (data row_ids) i < 2 ^ 63)
    (Exec_indices mem row_ids) →
  ∃ m' txn',
    Delete S mem m txn row_ids = Ok (m', txn')
    ∧ undo_buffer txn'
      = undo_buffer txn
        ++ (undo_of_run S (base_row m) <$> runs S (relative_ids mem m row_ids)).
Proof.
  intros HS Hbase Hsize Hids.
  assert (Hrel : Delete_row_ids mem m row_ids = relative_ids mem m row_ids).
  { unfold Delete_row_ids, relative_ids. apply Forall_fmap_ext_1.
    eapply Forall_impl; [exact Hids|]. intros i Hi. simpl in Hi. simpl.
    rewrite to_index_t_small by lia. apply to_row_t_small. lia. }
  assert (Hvalid : Forall (valid_row_id (base_row m)) (relative_ids mem m row_ids)).
  { unfold relative_ids. apply Forall_fmap.
    eapply Forall_impl; [exact Hids|]. intros i Hi. simpl in *.
    unfold valid_row_id. lia. }
  assert (Hlen : Z.of_nat (length (relative_ids mem m row_ids)) ≤ S).
  { unfold relative_ids, Exec_indices. rewrite !length_fmap, length_seqZ. lia. }
  set (s0 := new_VersionDeleteState S (log GetExclusiveLock m) txn (base_row m)).
  destruct (Delete_runs (base_row m) (relative_ids mem m row_ids) HS Hbase [] s0)
    as (s' & Hrun & Hundo).
  { unfold accumulating, s0. simpl. rewrite length_replicate. done. }
  { exact Hvalid. }
  { simpl. lia. }
  unfold Delete. cbv zeta. rewrite Hrel.
  change (new_VersionDeleteState _ _ _ _) with s0.
  destruct (foldlM _ _ s0) as [s1|e]; simpl in *; [|done].
  rewrite Hrun. simpl. do 2 eexists. split; [reflexivity|]. exact Hundo.
Qed.

End StorageProperties.

(** * Properties of the expression executor *)

Section ExecutionProperties.

Import Execution.

Variable ExpressionState : Type.
Variable Reset : ExpressionState → ExpressionState.
Variable Vector_Verify : Memory → Vector → bool.
Variable R : Routines ExpressionState.

Local Abbreviation Execute := (Execute ExpressionState Reset Vector_Verify R).
Local Abbreviation ExecuteExpression :=
  (ExecuteExpression ExpressionState Reset Vector_Verify R).
Local Abbreviation ExecuteExpression_vector :=
  (ExecuteExpression_vector ExpressionState Reset Vector_Verify R).
Local Abbreviation ExecuteExpression_chunk :=
  (ExecuteExpression_chunk ExpressionState Reset Vector_Verify R).
Local Abbreviation EvaluateScalar :=
  (EvaluateScalar ExpressionState Reset Vector_Verify R).
Local Abbreviation DefaultSelect :=
  (DefaultSelect ExpressionState Reset Vector_Verify R).

(** ** The broadcast of a constant *)

Lemma Set_broadcast mem result value k :
  0 ≤ k < count result →
  GetValue (Set_ mem result value).1 (Set_ mem result value).2 k = value.
Proof.
  intros Hk. destruct value as [|z]; simpl; [done|].
  unfold GetValue, position. simpl.
  rewrite bool_decide_eq_true_2; [done|]. split; [done|].
  unfold Exec_indices. apply list_elem_of_fmap.
  exists k. split; [done|]. apply elem_of_seqZ. lia.
Qed.

Lemma Set_shape mem result value :
  count (Set_ mem result value).2 = count result
  ∧ sel_vector (Set_ mem result value).2 = sel_vector result
  ∧ data (Set_ mem result value).2 = data result.
Proof. by destruct value. Qed.

(** ** The reconciliation with the input chunk *)

Lemma reconcile_constant c initial_data mem result :
  IsConstant result = true →
  reconcile c initial_data mem result
  = Ok (Set_ mem (broadcast_target c initial_data result) (GetValue mem result 0)).
Proof.
  intros Hconst. unfold reconcile. rewrite Hconst.
  destruct (Set_ mem _ _) as [mem' result'] eqn:Hset.
  pose proof (Set_shape mem (broadcast_target c initial_data result)
                (GetValue mem result 0)) as (_ & Hsel & _).
  rewrite Hset in Hsel. simpl in *.
  by rewrite bool_decide_eq_true_2.
Qed.

Lemma reconcile_mismatch c initial_data mem result :
  IsConstant result = false → count result ≠ size c →
  reconcile c initial_data mem result = Throw (Exception length_mismatch).
Proof.
  intros Hconst Hcount. unfold reconcile. rewrite Hconst.
  by rewrite decide_True.
Qed.

Lemma reconcile_sel_vector c initial_data mem result mem' result' :
  reconcile c initial_data mem result = Ok (mem', result') →
  sel_vector result' = chunk_sel_vector c.
Proof.
  unfold reconcile.
  destruct (IsConstant result); [|destruct (decide (count result ≠ size c))];
    simpl; try done.
  - destruct (Set_ _ _ _) as [mem2 result2]. simpl.
    case_bool_decide; simpl; [|done]. by intros [= _ <-].
  - case_bool_decide; simpl; [|done]. by intros [= _ <-].
Qed.

(** ** ExecuteExpression *)

Lemma restore_owned_data_shape owned initial_data result :
  count (restore_owned_data owned initial_data result) = count result
  ∧ sel_vector (restore_owned_data owned initial_data result) = sel_vector result
  ∧ data (restore_owned_data owned initial_data result) = data result
  ∧ nullmask (restore_owned_data owned initial_data result) = nullmask result.
Proof. unfold restore_owned_data. by case_decide. Qed.

Lemma GetValue_restore_owned_data mem owned initial_data result k :
  GetValue mem (restore_owned_data owned initial_data result) k = GetValue mem result k.
Proof. unfold restore_owned_data. by case_decide. Qed.

Lemma ExecuteExpression_steps ex mem expr_idx result expr state root mem1 result1 :
  0 ≤ expr_idx →
  expressions ex !! Z.to_nat expr_idx = Some expr →
  states ex !! Z.to_nat expr_idx = Some state →
  type result = return_type expr →
  Execute ex mem expr (root_state state) (set_owned_data None result)
  = Ok (root, mem1, result1) →
  ExecuteExpression ex mem expr_idx result
  = '(mem2, result2) ← match chunk ex with
                       | Some c => reconcile c (data result) mem1 result1
                       | None => Ok (mem1, result1)
                       end;
    Ok (set_root_state ex (Z.to_nat expr_idx) root, mem2,
        restore_owned_data (owned_data result) (data result) result2).
Proof.
  intros Hidx Hexpr Hstate Htype Hexec. unfold Execution.ExecuteExpression.
  apply lookup_lt_Some in Hexpr as Hlt.
  rewrite bool_decide_eq_true_2 by lia. simpl.
  rewrite Hexpr, Hstate. rewrite bool_decide_eq_true_2 by done. simpl.
  rewrite Hexec. simpl.
  destruct (chunk ex); simpl; [destruct (reconcile _ _ _ _) as [[mem2 result2]|]|]; done.
Qed.

Lemma ExecuteExpression_sel_vector ex mem expr_idx result c ex' mem' result' :
  chunk ex = Some c →
  ExecuteExpression ex mem expr_idx result = Ok (ex', mem', result') →
  sel_vector result' = chunk_sel_vector c.
Proof.
  intros Hchunk. unfold Execution.ExecuteExpression.
  case_bool_decide; simpl; [|done].
  destruct (expressions ex !! Z.to_nat expr_idx) as [expr|]; [|done].
  destruct (states ex !! Z.to_nat expr_idx) as [state|]; [|done].
  case_bool_decide; simpl; [|done].
  destruct (Execution.Execute _ _ _ _ _ _ _ _ _) as [[[root mem1] result1]|]; simpl; [|done].
  rewrite Hchunk.
  destruct (reconcile _ _ _ _) as [[mem2 result2]|] eqn:Hrec; simpl; [|done].
  intros [= _ _ <-]. apply reconcile_sel_vector in Hrec.
  unfold restore_owned_data. by case_decide.
Qed.

(** C1.  Executing a registered expression while an input chunk is active.
    When the routine of the expression returns a constant vector, its value
    is broadcast over the rows of the chunk: the result has the count and the
    selection vector of the chunk and holds the value in each of its rows.
    When the routine returns a vector that is not constant and whose count
    differs from the size of the chunk, the call throws the length-mismatch
    exception.  Whenever the call succeeds, the selection vector of the
    result is the selection vector of the chunk, the same pointer. *)
Theorem ExecuteExpression_reconciles ex mem expr_idx result c expr state root mem1 result1 :
  chunk ex = Some c →
  0 ≤ expr_idx →
  expressions ex !! Z.to_nat expr_idx = Some expr →
  states ex !! Z.to_nat expr_idx = Some state →
  type result = return_type expr →
  Execute ex mem expr (root_state state) (set_owned_data None result)
  = Ok (root, mem1, result1) →
  (IsConstant result1 = true →
     ∃ ex' mem2 result2,
       ExecuteExpression ex mem expr_idx result = Ok (ex', mem2, result2)
       ∧ count result2 = size c
       ∧ sel_vector result2 = chunk_sel_vector c
       ∧ ∀ k, 0 ≤ k < size c → GetValue mem2 result2 k = GetValue mem1 result1 0)
  ∧ (IsConstant result1 = false → count result1 ≠ size c →
       ExecuteExpression ex mem expr_idx result = Throw (Exception length_mismatch))
  ∧ (∀ ex' mem2 result2,
       ExecuteExpression ex mem expr_idx result = Ok (ex', mem2, result2) →
       sel_vector result2 = chunk_sel_vector c).
Proof.
  intros Hchunk Hidx Hexpr Hstate Htype Hexec.
  pose proof (ExecuteExpression_steps _ _ _ _ _ _ _ _ _ Hidx Hexpr Hstate Htype Hexec)
    as Hsteps.
  rewrite Hchunk in Hsteps.
  split; [|split].
  - intros Hconst. rewrite reconcile_constant in Hsteps by done.
    set (target := broadcast_target c (data result) result1) in *.
    set (value := GetValue mem1 result1 0) in *.
    pose proof (Set_shape mem1 target value) as (Hcount & Hsel & _).
    pose proof (Set_broadcast mem1 target value) as Hvalue.
    destruct (Set_ mem1 target value) as [mem2 result2]. simpl in *.
    pose proof (restore_owned_data_shape (owned_data result) (data result) result2)
      as (Hc' & Hs' & _).
    do 3 eexists. split; [exact Hsteps|]. rewrite Hc', Hs'.
    repeat split; try done.
    intros k Hk. rewrite GetValue_restore_owned_data. by apply Hvalue.
  - intros Hconst Hcount. by rewrite reconcile_mismatch in Hsteps.
  - intros ex' mem2 result2. by apply ExecuteExpression_sel_vector.
Qed.

(** ** EvaluateScalar *)



(** ** DefaultSelect *)

Lemma to_sel_t_small i : 0 ≤ i < 2 ^ 16 → to_sel_t i = i.
Proof. intros. unfold to_sel_t. by apply Z.mod_small. Qed.

Lemma select_scan mem intermediate positions :
  Forall (λ i, 0 ≤ i < 2 ^ 16) positions →
  ∀ (n : nat) (result : list Z),
    (n + length positions ≤ length result)%nat →
    Z.of_nat (length result) < 2 ^ 64 →
    let selected := filter (λ i, is_selected mem intermediate i = true) positions in
    ∃ result',
      foldlM (select_row mem intermediate) positions (Z.of_nat n, result)
      = Ok (Z.of_nat (n + length selected), result')
      ∧ take (n + length selected) result' = take n result ++ selected
      ∧ drop (n + length selected) result' = drop (n + length selected) result.
Proof.
  induction 1 as [|i positions Hi Hrange IH]; intros n result Hroom Hmax selected.
  - exists result. unfold selected. simpl. rewrite !Nat.add_0_r, app_nil_r. done.
  - simpl in Hroom. unfold selected. simpl.
    fold (is_selected mem intermediate i).
    destruct (is_selected mem intermediate i) eqn:Hsel.
    + rewrite filter_cons_True by done.
      rewrite decide_True by lia. simpl.
      rewrite to_index_t_small, to_sel_t_small by lia.
      replace (Z.of_nat n + 1) with (Z.of_nat (Datatypes.S n)) by lia.
      rewrite Nat2Z.id.
      destruct (IH (Datatypes.S n) (<[n := i]> result)) as (result' & Hrun & Htake & Hdrop).
      { rewrite length_insert. lia. }
      { by rewrite length_insert. }
      exists result'. simpl in *.
      replace (n + Datatypes.S (length (filter (λ i, is_selected mem intermediate i = true)
                                          positions)))%nat
        with (Datatypes.S (n + length (filter (λ i, is_selected mem intermediate i = true)
                                         positions)))%nat by lia.
      split; [exact Hrun|]. split.
      * rewrite Htake. rewrite (take_S_r _ _ i) by (apply list_lookup_insert_eq; lia).
        rewrite take_insert_ge by lia. by rewrite <- app_assoc.
      * rewrite Hdrop. apply drop_insert_lt. lia.
    + rewrite filter_cons_False by (by rewrite Hsel).
      apply IH; [lia|done].
Qed.

Lemma StronglySorted_filter (P : Z → Prop) `{!∀ i, Decision (P i)} (l : list Z) :
  StronglySorted Z.lt l → StronglySorted Z.lt (filter P l).
Proof.
  induction 1 as [|x l Hsorted IH Hall]; [constructor|].
  rewrite filter_cons. case_decide; [|done].
  constructor; [done|].
  apply Forall_forall. intros y [_ Hy]%list_elem_of_filter.
  rewrite Forall_forall in Hall. by apply Hall.
Qed.

(** Without a selection vector the scan visits the positions 0, 1, ... in
    ascending order. *)
Lemma Exec_indices_ascending mem v :
  sel_vector v = None → StronglySorted Z.lt (Exec_indices mem v).
Proof.
  intros Hsel. unfold Exec_indices. rewrite Hsel.
  rewrite list_fmap_id.
  generalize 0. generalize (count v). intros n m0.
  unfold seqZ. generalize (Z.to_nat n). clear n. intros n.
  apply (StronglySorted_fmap _ Nat.lt Z.lt).
  - intros a b Hab. lia.
  - generalize 0%nat. induction n as [|n IH]; intros a; simpl; constructor; [apply IH|].
    apply Forall_forall. intros b Hb%elem_of_seq. lia.
Qed.

(** The boolean expressions without a specialised selector are those whose
    class is not between, comparison or conjunction: Select hands them to
    DefaultSelect. *)
Lemma Select_without_specialised_selector ex mem expr state result :
  return_type expr = BOOLEAN →
  expression_class expr ≠ BOUND_BETWEEN →
  expression_class expr ≠ BOUND_COMPARISON →
  expression_class expr ≠ BOUND_CONJUNCTION →
  Select ExpressionState Reset Vector_Verify R ex mem expr state result
  = DefaultSelect ex mem expr state result.
Proof.
  intros Htype Hbetween Hcomparison Hconjunction. unfold Select.
  rewrite bool_decide_eq_true_2 by done. simpl.
  by destruct (expression_class expr).
Qed.

(** C5, as the code has it.  DefaultSelect evaluates the expression into a
    vector of booleans.  When the vector is constant, true and not NULL, it
    returns the row count of the chunk and does not write the output; when
    the vector is constant and false or NULL it returns 0 and does not write
    the output; otherwise it writes the positions that hold true and are not
    NULL at the front of the output, in the order in which the selection
    vector lists them, and returns their number.  That order is ascending
    when the selection vector is ascending, or absent. *)
Theorem DefaultSelect_selects ex mem expr state result c state1 mem1 intermediate :
  chunk ex = Some c →
  Execute ex (alloc mem).2 expr state (intermediate_vector (alloc mem).1)
  = Ok (state1, mem1, intermediate) →
  (IsConstant intermediate = true → is_selected mem1 intermediate 0 = true →
     DefaultSelect ex mem expr state result = Ok (state1, mem1, (size c, result)))
  ∧ (IsConstant intermediate = true → is_selected mem1 intermediate 0 = false →
       DefaultSelect ex mem expr state result = Ok (state1, mem1, (0, result)))
  ∧ (IsConstant intermediate = false →
     count intermediate ≤ Z.of_nat (length result) →
     Z.of_nat (length result) < 2 ^ 64 →
     Forall (λ i, 0 ≤ i < 2 ^ 16) (Exec_indices mem1 intermediate) →
     let selected := selected_positions mem1 intermediate in
     ∃ result',
       DefaultSelect ex mem expr state result
       = Ok (state1, mem1, (Z.of_nat (length selected), result'))
       ∧ take (length selected) result' = selected
       ∧ drop (length selected) result' = drop (length selected) result
       ∧ (StronglySorted Z.lt (Exec_indices mem1 intermediate) →
          StronglySorted Z.lt selected)).
Proof.
  intros Hchunk Hexec. unfold Execution.DefaultSelect.
  simpl in Hexec. simpl. rewrite Hexec. simpl.
  split; [|split].
  - intros -> ->. by rewrite Hchunk.
  - by intros -> ->.
  - intros -> Hcount Hmax Hrange.
    destruct (select_scan mem1 intermediate (Exec_indices mem1 intermediate) Hrange
                0%nat result) as (result' & Hrun & Htake & Hdrop).
    { unfold Exec_indices. rewrite length_fmap, length_seqZ. lia. }
    { done. }
    exists result'. simpl in *. fold (selected_positions mem1 intermediate) in *.
    change (Z.of_nat 0) with 0 in Hrun. rewrite Hrun. simpl.
    repeat split; try done.
    apply StronglySorted_filter.
Qed.

End ExecutionProperties.

(** * The properties on concrete inputs *)

Section Instances.

Import Storage Execution Sample.

Example runs_of_four_ids :
  runs 1024 [5; 3; 1029; 7] = [(0, [5; 3]); (1, [5]); (0, [7])].
Proof. reflexivity. Qed.

Example Fetch_log :
  Fetch vector_size hide_row empty_manager txn 0
  = (true, {| info := ∅; base_row := 0; max_row := 0; lock_log := [InfoAccess 0] |}).
Proof. reflexivity. Qed.

Lemma no_entry_fully_visible_witness :
  (GetSelVector hide_all empty_manager txn 3 [9; 9] 2).1 = (2, [9; 9])
  ∧ (Fetch 1024 hide_row empty_manager txn 3100).1 = true.
Proof.
  destruct (no_entry_fully_visible 1024 ltac:(lia) hide_all hide_row empty_manager 3
              ltac:(simpl; lia) ltac:(lia) eq_refl) as [Hsel Hfetch].
  split; [apply Hsel|apply Hfetch; simpl; lia].
Defined.

(** RevertAppend(1000, 1500) after the append of the rows 0 to 1999: block 0,
    which holds row 1000 and starts before it, keeps its entry; block 1,
    whose first row 1024 is in the range, loses its entry. *)
Lemma RevertAppend_erases_blocks_starting_in_range_witness :
  entry_state filled 0 = InsertInfo ∧ entry_state filled 1 = InsertInfo
  ∧ ∃ m', RevertAppend 1024 filled 1000 1500 = Some m'
          ∧ info m' !! 0 = info filled !! 0
          ∧ info m' !! 1 = None.
Proof.
  split; [by vm_compute|]. split; [by vm_compute|].
  destruct (RevertAppend_erases_blocks_starting_in_range 1024 ltac:(lia) filled 1000 1500
              ltac:(lia) ltac:(lia))
    as (m' & Hrun & _ & Hstart & _ & Hend).
  exists m'. split; [exact Hrun|]. split.
  - apply Hstart. by vm_compute.
  - exact Hend.
Defined.

(** After the append of the rows 0 to 1999, RevertAppend(1024, 1500) erases
    the entry of block 1.  The block holds row 1999, stamped by the append,
    which lies beyond row_end: the block is not fully contained in
    [1024, 1500], whether it is taken with its 1024 rows or with the rows
    appended to it only. *)
Lemma RevertAppend_erases_partly_covered_block :
  entry_state filled 1 = InsertInfo
  ∧ stamped filled 1 (1999 - 1024) 9
  ∧ 1500 < 1999
  ∧ ¬ fully_contained 1024 1 1024 1500
  ∧ (λ m', entry_state m' 1) <$> RevertAppend 1024 filled 1024 1500 = Some Absent.
Proof.
  split; [by vm_compute|].
  split; [do 3 eexists; split; by vm_compute|].
  split; [lia|].
  split; [unfold fully_contained; lia|].
  by vm_compute.
Qed.

Lemma entry_state_machine_witness :
  step 1024 (OpRevertAppend 1024 2047) deleted = Some reverted
  ∧ transition (OpRevertAppend 1024 2047) (entry_state deleted 1) (entry_state reverted 1).
Proof.
  assert (Hstep : step 1024 (OpRevertAppend 1024 2047) deleted = Some reverted)
    by (vm_compute; reflexivity).
  split; [exact Hstep|]. exact (entry_state_machine 1024 _ _ _ 1 Hstep).
Defined.

(** RevertAppend(1024, 2047) erases the delete-info that the deletion of
    row 1029 has created for block 1: the entry is removed and not promoted. *)
Lemma RevertAppend_removes_delete_info :
  step 1024 (OpDelete row_1029 txn id_1029) empty_manager = Some deleted
  ∧ entry_state deleted 1 = DeleteInfo
  ∧ step 1024 (OpRevertAppend 1024 2047) deleted = Some reverted
  ∧ entry_state reverted 1 = Absent
  ∧ ¬ specified_transition (OpRevertAppend 1024 2047)
        (entry_state deleted 1) (entry_state reverted 1).
Proof.
  split; [by vm_compute|]. split; [by vm_compute|].
  split; [by vm_compute|]. split; [by vm_compute|].
  replace (entry_state deleted 1) with DeleteInfo by (by vm_compute).
  replace (entry_state reverted 1) with Absent by (by vm_compute).
  intros [_ Hkeep]. by destruct (Hkeep eq_refl).
Qed.

(** Appending the rows 1000 to 1099 to the manager in which row 1029 was
    deleted: the rows span the blocks 0 and 1, and block 1 holds a
    delete-info. *)
Lemma Append_stamps_rows_witness :
  let m' := Append 1024 deleted txn 1000 100 9 in
  (∀ i, 0 ≤ i < 100 → stamped m' ((1000 + i) / 1024) ((1000 + i) `mod` 1024) 9)
  ∧ (∀ i s d, 0 ≤ i < 100 →
       info deleted !! ((1000 + i) / 1024) = Some (ChunkDeleteInfo s d) →
       ∃ ins, info m' !! ((1000 + i) / 1024) = Some (ChunkInsertInfo s d ins))
  ∧ max_row m' = max_row deleted + 100.
Proof. apply (Append_stamps_rows 1024); try lia; by vm_compute. Defined.

Lemma Delete_rows_in_bounds_witness :
  (∀ processed s,
     processed `prefix_of` Delete_row_ids rows_5_3 empty_manager ids_5_3 →
     foldlM (VersionDeleteState_Delete 1024) processed
       (new_VersionDeleteState 1024 (log GetExclusiveLock empty_manager) txn
          (base_row empty_manager)) = Ok s →
     0 ≤ del_count s ≤ Z.of_nat (length processed) ∧ del_count s ≤ 1024)
  ∧ Delete 1024 rows_5_3 empty_manager txn ids_5_3 ≠ Throw OutOfBounds.
Proof. apply (Delete_rows_in_bounds 1024); simpl; lia. Defined.

(** Delete(T, {row 5, row 3}) on an untouched block pushes one undo record,
    which covers both rows. *)
Lemma Delete_5_3_one_undo_record :
  ∃ m' txn',
    Delete 1024 rows_5_3 empty_manager txn ids_5_3 = Ok (m', txn')
    ∧ undo_buffer txn' = [{| undo_block := 0; undo_rows := [5; 3]; undo_base_row := 0 |}].
Proof.
  destruct (Delete_pushes_one_undo_per_run 1024 ltac:(lia) rows_5_3 empty_manager txn
              ids_5_3) as (m' & txn' & Hdelete & Hundo).
  - lia.
  - simpl. lia.
  - simpl. lia.
  - repeat constructor; simpl; lia.
  - exists m', txn'. split; [exact Hdelete|]. rewrite Hundo. reflexivity.
Defined.

Local Abbreviation ExecuteExpression := (ExecuteExpression no_state no_reset verified routines).
Local Abbreviation EvaluateScalar := (EvaluateScalar no_state no_reset verified routines).
Local Abbreviation DefaultSelect := (DefaultSelect no_state no_reset verified routines).

Example EvaluateScalar_constant :
  match EvaluateScalar flags_plain constant_expression with
  | Ok (_, value) => value = Val 42
  | Throw _ => False
  end.
Proof. by vm_compute. Qed.

Lemma ExecuteExpression_reconciles_witness :
  ∃ ex' mem2 result2,
    ExecuteExpression (executor_of constant_expression (Some three_rows)) flags_plain 0
      integer_result = Ok (ex', mem2, result2)
    ∧ count result2 = 3 ∧ sel_vector result2 = None
    ∧ ∀ k, 0 ≤ k < 3 → GetValue mem2 result2 k = Val 42.
Proof.
  edestruct (ExecuteExpression_reconciles no_state no_reset verified routines
               (executor_of constant_expression (Some three_rows)) flags_plain 0
               integer_result three_rows constant_expression {| root_state := None |})
    as (Hconstant & _ & _);
    [reflexivity|lia|reflexivity|reflexivity|reflexivity|reflexivity|].
  destruct (Hconstant eq_refl) as (ex' & mem2 & result2 & Hrun & Hcount & Hsel & Hvalue).
  exists ex', mem2, result2. split; [exact Hrun|]. split; [exact Hcount|].
  split; [exact Hsel|]. intros k Hk. rewrite (Hvalue k Hk). reflexivity.
Defined.


Lemma DefaultSelect_selects_witness :
  ∃ state1 mem1 result',
    DefaultSelect (executor_of flag_expression (Some flags_plain_chunk)) flags_plain
      flag_expression None [9; 9; 9; 9] = Ok (state1, mem1, (2, result'))
    ∧ take 2 result' = [1; 3] ∧ drop 2 result' = [9; 9].
Proof.
  edestruct (DefaultSelect_selects no_state no_reset verified routines
               (executor_of flag_expression (Some flags_plain_chunk)) flags_plain
               flag_expression None [9; 9; 9; 9] flags_plain_chunk)
    as (_ & _ & Hscan); [reflexivity|reflexivity|].
  destruct Hscan as (result' & Hrun & Htake & Hdrop & _).
  - reflexivity.
  - simpl. lia.
  - simpl. lia.
  - repeat constructor; simpl; lia.
  - do 2 eexists. exists result'. split; [exact Hrun|]. split; [exact Htake|exact Hdrop].
Defined.

(** On a chunk whose selection vector lists the rows 3 and 1, both true,
    DefaultSelect writes 3 before 1. *)
Lemma DefaultSelect_follows_selection_vector :
  match DefaultSelect (executor_of flag_expression (Some flags_chunk)) flags
          flag_expression None [9; 9; 9; 9] with
  | Ok (_, _, selected) => selected = (2, [3; 1; 9; 9])
  | Throw _ => False
  end
  ∧ ¬ StronglySorted Z.lt [3; 1].
Proof.
  split; [by vm_compute|].
  intros Hsorted. apply StronglySorted_inv in Hsorted as [_ Hall].
  apply Forall_cons in Hall as [Hlt _]. lia.
Qed.

End Instances.

(** * Further properties of the version manager *)

Section StorageExtras.

Import Storage.

Variable STANDARD_VECTOR_SIZE : Z.
Hypothesis vector_size_pos : 0 < STANDARD_VECTOR_SIZE.

Variable ChunkInfo_GetSelVector : ChunkInfo → Transaction → list Z → Z → Z * list Z.
Variable ChunkInfo_Fetch : ChunkInfo → Transaction → Z → bool.

Local Abbreviation S := STANDARD_VECTOR_SIZE.
Local Abbreviation GetSelVector := (GetSelVector ChunkInfo_GetSelVector).
Local Abbreviation Fetch := (Fetch STANDARD_VECTOR_SIZE ChunkInfo_Fetch).

(** ** The lock and the fields of the manager *)

Lemma only_accesses_refl m : only_accesses m m.
Proof. exists []. by rewrite app_nil_r. Qed.

Lemma only_accesses_trans m1 m2 m3 :
  only_accesses m1 m2 → only_accesses m2 m3 → only_accesses m1 m3.
Proof.
  intros (a1 & H1 & Ha1) (a2 & H2 & Ha2). exists (a1 ++ a2).
  split; [by rewrite H2, H1, app_assoc|by apply Forall_app].
Qed.

Lemma only_accesses_log index m : only_accesses m (log (InfoAccess index) m).
Proof. exists [InfoAccess index]. split; [done|by repeat constructor]. Qed.

Lemma only_accesses_set_info f m : only_accesses m (set_info f m).
Proof. exists []. simpl. by rewrite app_nil_r. Qed.

Lemma GetInsertInfo_only_accesses m chunk_idx :
  only_accesses m (GetInsertInfo S m chunk_idx).
Proof.
  unfold GetInsertInfo, info_find, info_store.
  destruct (info m !! chunk_idx) as [ci|]; simpl; [destruct (info_type ci)|].
  - apply only_accesses_log.
  - eapply only_accesses_trans; [apply only_accesses_log|].
    apply (only_accesses_log chunk_idx (set_info _ _)).
  - eapply only_accesses_trans; [apply only_accesses_log|].
    apply (only_accesses_log chunk_idx (set_info _ _)).
Qed.

Lemma Append_loop_only_accesses n commit_id m chunk_idx idx_in_chunk :
  only_accesses m (Append_loop S n commit_id m chunk_idx idx_in_chunk).
Proof.
  revert m chunk_idx idx_in_chunk.
  induction n as [|n IH]; intros m chunk_idx idx_in_chunk; simpl.
  - apply only_accesses_refl.
  - case_decide.
    + eapply only_accesses_trans; [apply only_accesses_set_info|].
      eapply only_accesses_trans; [apply GetInsertInfo_only_accesses|apply IH].
    + eapply only_accesses_trans; [apply only_accesses_set_info|apply IH].
Qed.

Lemma Flush_only_accesses s s' :
  Flush s = Ok s' → only_accesses (manager s) (manager s').
Proof.
  unfold Flush. case_decide; [intros [= <-]; apply only_accesses_refl|].
  destruct (current_info s), (chunk_row s); try done.
  intros [= <-]. apply only_accesses_set_info.
Qed.

Lemma VersionDeleteState_Delete_only_accesses s row_id s' :
  VersionDeleteState_Delete S s row_id = Ok s' →
  only_accesses (manager s) (manager s').
Proof.
  unfold VersionDeleteState_Delete.
  set (chunk_idx := to_index_t (row_id ÷ S)).
  case_decide as Hchunk; simpl.
  - destruct (Flush s) as [s1|] eqn:Hflush; simpl; [|done].
    apply Flush_only_accesses in Hflush. unfold info_find.
    case_decide; [|done]. intros [= <-]. simpl.
    eapply only_accesses_trans; [exact Hflush|].
    destruct (info (manager s1) !! chunk_idx); [apply only_accesses_log|].
    eapply only_accesses_trans; [apply only_accesses_log|].
    apply (only_accesses_log chunk_idx (set_info _ _)).
  - case_decide; [|done]. intros [= <-]. apply only_accesses_refl.
Qed.

Lemma foldlM_Delete_only_accesses ids s s' :
  foldlM (VersionDeleteState_Delete S) ids s = Ok s' →
  only_accesses (manager s) (manager s').
Proof.
  revert s. induction ids as [|r ids IH]; intros s; simpl.
  - intros [= <-]. apply only_accesses_refl.
  - destruct (VersionDeleteState_Delete S s r) as [s1|] eqn:Hstep; simpl; [|done].
    intros Hrest. eapply only_accesses_trans; [|by apply IH].
    by eapply VersionDeleteState_Delete_only_accesses.
Qed.

Lemma RevertAppend_loop_only_accesses fuel m chunk_start chunk_end m' :
  RevertAppend_loop fuel m chunk_start chunk_end = Some m' → only_accesses m m'.
Proof.
  revert m chunk_start. induction fuel as [|fuel IH]; intros m chunk_start; simpl.
  - case_decide; [done|]. intros [= <-]. apply only_accesses_refl.
  - case_decide; [|intros [= <-]; apply only_accesses_refl].
    intros Hloop. eapply only_accesses_trans; [|by eapply IH].
    apply (only_accesses_log chunk_start (set_info _ _)).
Qed.

Lemma lock_discipline_accesses accesses rest :
  Forall (λ e, is_access e = true) accesses →
  lock_discipline true (accesses ++ rest) = lock_discipline true rest.
Proof.
  induction 1 as [|e accesses He _ IH]; [done|]. by destruct e.
Qed.

Lemma writer_events m m1 m2 :
  only_accesses (log GetExclusiveLock m) m1 →
  lock_log m2 = lock_log m1 ++ [ReleaseLock] →
  ∃ accesses,
    new_events m m2 = GetExclusiveLock :: accesses ++ [ReleaseLock]
    ∧ Forall (λ e, is_access e = true) accesses.
Proof.
  intros (accesses & Hlog & Hacc) Hrelease. exists accesses. split; [|done].
  unfold new_events. rewrite Hrelease, Hlog. simpl.
  rewrite <- !app_assoc. by rewrite drop_app_length.
Qed.

(** X1.  Every operation that changes the version map takes the exclusive
    lock first, then only accesses the map, and releases the lock last: all
    its accesses to the map happen under the lock. *)
Theorem writers_hold_exclusive_lock op m m' :
  step S op m = Some m' →
  (∃ accesses,
     new_events m m' = GetExclusiveLock :: accesses ++ [ReleaseLock]
     ∧ Forall (λ e, is_access e = true) accesses)
  ∧ lock_discipline false (new_events m m') = true.
Proof.
  intros Hstep.
  assert (Hevents : ∃ accesses,
            new_events m m' = GetExclusiveLock :: accesses ++ [ReleaseLock]
            ∧ Forall (λ e, is_access e = true) accesses).
  { destruct op as [transaction row_start count commit_id
                   |mem transaction row_ids|row_start row_end]; simpl in Hstep.
    - injection Hstep as <-. unfold Append.
      eapply writer_events; [|reflexivity].
      eapply only_accesses_trans; [apply GetInsertInfo_only_accesses|].
      eapply only_accesses_trans; [apply Append_loop_only_accesses|].
      exists []. simpl. by rewrite app_nil_r.
    - unfold Delete in Hstep.
      destruct (foldlM _ _ _) as [s1|] eqn:Hfold; simpl in Hstep; [|done].
      destruct (Flush s1) as [s2|] eqn:Hflush; simpl in Hstep; [|done].
      injection Hstep as <-.
      eapply writer_events; [|reflexivity].
      apply foldlM_Delete_only_accesses in Hfold.
      apply Flush_only_accesses in Hflush.
      eapply only_accesses_trans; [exact Hfold|exact Hflush].
    - unfold RevertAppend in Hstep.
      destruct (RevertAppend_loop _ _ _ _) as [m1|] eqn:Hloop; simpl in Hstep; [|done].
      injection Hstep as <-.
      eapply writer_events; [|reflexivity].
      by eapply RevertAppend_loop_only_accesses. }
  split; [exact Hevents|].
  destruct Hevents as (accesses & -> & Hacc). simpl.
  by rewrite lock_discipline_accesses.
Qed.

Lemma same_rows_refl m : same_rows m m.
Proof. by split. Qed.

Lemma same_rows_trans m1 m2 m3 : same_rows m1 m2 → same_rows m2 m3 → same_rows m1 m3.
Proof. intros [H1 H1'] [H2 H2']. split; congruence. Qed.

Lemma GetInsertInfo_same_rows m chunk_idx : same_rows m (GetInsertInfo S m chunk_idx).
Proof.
  unfold GetInsertInfo, info_find.
  by destruct (info m !! chunk_idx) as [ci|]; simpl; [destruct (info_type ci)|].
Qed.

Lemma Append_loop_same_rows n commit_id m chunk_idx idx_in_chunk :
  same_rows m (Append_loop S n commit_id m chunk_idx idx_in_chunk).
Proof.
  revert m chunk_idx idx_in_chunk.
  induction n as [|n IH]; intros m chunk_idx idx_in_chunk; simpl; [done|].
  case_decide.
  - eapply same_rows_trans; [|apply IH].
    apply (GetInsertInfo_same_rows (set_info _ m)).
  - apply (IH (set_info _ m)).
Qed.

Lemma Flush_same_rows s s' : Flush s = Ok s' → same_rows (manager s) (manager s').
Proof.
  unfold Flush. case_decide; [by intros [= <-]|].
  destruct (current_info s), (chunk_row s); try done. by intros [= <-].
Qed.

Lemma VersionDeleteState_Delete_same_rows s row_id s' :
  VersionDeleteState_Delete S s row_id = Ok s' → same_rows (manager s) (manager s').
Proof.
  unfold VersionDeleteState_Delete.
  set (chunk_idx := to_index_t (row_id ÷ S)).
  case_decide as Hchunk; simpl.
  - destruct (Flush s) as [s1|] eqn:Hflush; simpl; [|done].
    apply Flush_same_rows in Hflush. unfold info_find.
    case_decide; [|done]. intros [= <-]. simpl.
    eapply same_rows_trans; [exact Hflush|].
    by destruct (info (manager s1) !! chunk_idx).
  - case_decide; [|done]. by intros [= <-].
Qed.

Lemma foldlM_Delete_same_rows ids s s' :
  foldlM (VersionDeleteState_Delete S) ids s = Ok s' → same_rows (manager s) (manager s').
Proof.
  revert s. induction ids as [|r ids IH]; intros s; simpl.
  - by intros [= <-].
  - destruct (VersionDeleteState_Delete S s r) as [s1|] eqn:Hstep; simpl; [|done].
    intros Hrest. eapply same_rows_trans; [|by apply IH].
    by eapply VersionDeleteState_Delete_same_rows.
Qed.

Lemma RevertAppend_loop_same_rows fuel m chunk_start chunk_end m' :
  RevertAppend_loop fuel m chunk_start chunk_end = Some m' → same_rows m m'.
Proof.
  revert m chunk_start. induction fuel as [|fuel IH]; intros m chunk_start; simpl.
  - case_decide; [done|]. by intros [= <-].
  - case_decide; [|by intros [= <-]].
    intros Hloop. by apply IH in Hloop.
Qed.

(** X2.  No operation moves the first row of the manager, and only Append
    moves the high-water mark: Delete leaves max_row, and so does
    RevertAppend, which erases entries but does not take max_row back. *)
Theorem rows_of_the_manager op m m' :
  step S op m = Some m' →
  base_row m' = base_row m
  ∧ max_row m' = match op with
                 | OpAppend _ _ count _ => to_index_t (max_row m + count)
                 | _ => max_row m
                 end.
Proof.
  destruct op as [transaction row_start count commit_id
                 |mem transaction row_ids|row_start row_end]; simpl.
  - intros [= <-]. unfold Append. simpl.
    destruct (Append_loop_same_rows (Z.to_nat count) commit_id
                (GetInsertInfo S (log GetExclusiveLock m) (to_index_t (row_start ÷ S)))
                (to_index_t (row_start ÷ S))
                (to_index_t (row_start - to_index_t (to_index_t (row_start ÷ S) * S))))
      as [Hbase Hmax].
    destruct (GetInsertInfo_same_rows (log GetExclusiveLock m)
                (to_index_t (row_start ÷ S))) as [Hbase' Hmax'].
    simpl in *. split; congruence.
  - unfold Delete.
    destruct (foldlM _ _ _) as [s1|] eqn:Hfold; simpl; [|done].
    destruct (Flush s1) as [s2|] eqn:Hflush; simpl; [|done].
    intros [= <-]. simpl.
    apply foldlM_Delete_same_rows in Hfold as [Hb1 Hm1].
    apply Flush_same_rows in Hflush as [Hb2 Hm2]. simpl in *.
    split; congruence.
  - unfold RevertAppend.
    destruct (RevertAppend_loop _ _ _ _) as [m1|] eqn:Hloop; simpl; [|done].
    intros [= <-]. by apply RevertAppend_loop_same_rows in Hloop as [? ?].
Qed.

(** ** Readers with an entry *)

(** X3.  With an entry for the block, the readers hand the question to the
    rule of that entry: GetSelVector with the output positions and
    max_count it was given, Fetch with the offset of the row in its block,
    (row - base_row) mod STANDARD_VECTOR_SIZE.  Neither changes the map. *)
Theorem readers_delegate m transaction :
  (∀ index ci out_positions max_count,
     info m !! index = Some ci →
     (GetSelVector m transaction index out_positions max_count).1
     = ChunkInfo_GetSelVector ci transaction out_positions max_count
     ∧ info (GetSelVector m transaction index out_positions max_count).2 = info m)
  ∧ (∀ row ci,
       0 ≤ base_row m ≤ row → row < 2 ^ 63 →
       info m !! ((row - base_row m) / S) = Some ci →
       (Fetch m transaction row).1
       = ChunkInfo_Fetch ci transaction ((row - base_row m) `mod` S)
       ∧ info (Fetch m transaction row).2 = info m).
Proof.
  split.
  - intros index ci out_positions max_count Hci.
    unfold Storage.GetSelVector, info_find. simpl. rewrite Hci.
    by destruct (ChunkInfo_GetSelVector ci transaction out_positions max_count).
  - intros row ci Hbase Hrow Hci.
    unfold Storage.Fetch, info_find. simpl.
    rewrite (to_index_t_small (row - base_row m)) by lia.
    rewrite Hci. simpl. split; [|done]. f_equal.
    pose proof (block_bounds S vector_size_pos (row - base_row m) ltac:(lia)) as [Hb Hr].
    rewrite (to_index_t_small (_ * _)) by lia.
    replace ((row - base_row m) `mod` S)
      with (row - base_row m - (row - base_row m) / S * S)
      by (rewrite Z.mod_eq; lia).
    rewrite to_index_t_small by lia. apply to_row_t_small. lia.
Qed.

(** ** Delete: what a step does to the manager and to the transaction *)

Lemma Flush_inv s s' :
  Flush s = Ok s' →
  (del_count s = 0 ∧ s' = s)
  ∨ (del_count s ≠ 0
     ∧ ∃ k cr, current_info s = Some k ∧ chunk_row s = Some cr
        ∧ info (manager s')
          = alter (ChunkInfo_Delete (transaction s)
                     (take (Z.to_nat (del_count s)) (rows s))) k (info (manager s))
        ∧ transaction s'
          = PushDelete (transaction s) k (take (Z.to_nat (del_count s)) (rows s))
              (to_index_t (del_base_row s + cr))
        ∧ current_info s' = current_info s ∧ current_chunk s' = current_chunk s).
Proof.
  unfold Flush. case_decide; [intros [= <-]; by left|].
  destruct (current_info s) as [k|] eqn:Hk, (chunk_row s) as [cr|] eqn:Hcr; try done.
  intros [= <-]. right. split; [done|]. by exists k, cr.
Qed.

Lemma VersionDeleteState_Delete_inv s row_id s' :
  VersionDeleteState_Delete S s row_id = Ok s' →
  (chunk_of S row_id = current_chunk s
   ∧ manager s' = manager s ∧ transaction s' = transaction s
   ∧ current_info s' = current_info s ∧ current_chunk s' = current_chunk s)
  ∨ (chunk_of S row_id ≠ current_chunk s
     ∧ ∃ s1, Flush s = Ok s1
        ∧ transaction s' = transaction s1
        ∧ current_info s' = Some (chunk_of S row_id)
        ∧ current_chunk s' = chunk_of S row_id
        ∧ info (manager s')
          = match info (manager s1) !! chunk_of S row_id with
            | Some _ => info (manager s1)
            | None =>
                <[chunk_of S row_id :=
                    ChunkDeleteInfo (to_index_t (chunk_of S row_id * S)) ∅]>
                  (info (manager s1))
            end).
Proof.
  unfold VersionDeleteState_Delete, chunk_of.
  set (chunk_idx := to_index_t (row_id ÷ S)).
  case_decide as Hchunk; simpl.
  - destruct (Flush s) as [s1|] eqn:Hflush; simpl; [|done].
    unfold info_find. case_decide; [|done]. intros [= <-]. simpl.
    right. split; [done|]. exists s1. repeat split.
    by destruct (info (manager s1) !! chunk_idx).
  - case_decide; [|done]. intros [= <-]. simpl. left.
    repeat split. by destruct (decide (chunk_idx = current_chunk s)).
Qed.

(** An invariant of the delete state that every step keeps is kept by the
    whole call. *)
Lemma foldlM_Delete_invariant (P : VersionDeleteState → Prop) ids s s' :
  (∀ s1 r s2, r ∈ ids → P s1 → VersionDeleteState_Delete S s1 r = Ok s2 → P s2) →
  P s → foldlM (VersionDeleteState_Delete S) ids s = Ok s' → P s'.
Proof.
  revert s. induction ids as [|r ids IH]; intros s Hstep HP; simpl.
  - by intros [= <-].
  - destruct (VersionDeleteState_Delete S s r) as [s1|] eqn:Hs1; simpl; [|done].
    apply IH.
    + intros s2 r' s3 Hr'. apply Hstep. by right.
    + eapply Hstep; [by left|exact HP|exact Hs1].
Qed.

(** X4.  Delete changes the entries of the blocks of the given row ids
    only: the entry of every other block, present or absent, is as before. *)
Theorem Delete_leaves_other_blocks mem m txn row_ids m' txn' block :
  Delete S mem m txn row_ids = Ok (m', txn') →
  block ∉ chunk_of S <$> Delete_row_ids mem m row_ids →
  info m' !! block = info m !! block.
Proof.
  unfold Delete. cbv zeta.
  set (s0 := new_VersionDeleteState S (log GetExclusiveLock m) txn
               (base_row (log GetExclusiveLock m))).
  intros Hdelete Hblock.
  destruct (foldlM _ _ s0) as [s1|] eqn:Hfold; simpl in Hdelete; [|done].
  destruct (Flush s1) as [s2|] eqn:Hflush; simpl in Hdelete; [|done].
  injection Hdelete as <- <-.
  set (P := λ s : VersionDeleteState,
         current_info s ≠ Some block ∧ info (manager s) !! block = info m !! block).
  assert (Hflush_keeps : ∀ s s', P s → Flush s = Ok s' → P s').
  { intros s s' [Hcur Hinfo] [[_ ->]|(_ & k & cr & Hk & _ & Hinfo' & _ & Hcur' & _)]%Flush_inv;
      [done|].
    split; [congruence|].
    rewrite Hinfo', lookup_alter_ne; [done|congruence]. }
  assert (HP : P s1).
  { apply (foldlM_Delete_invariant P _ _ _) in Hfold; [done| |done].
    intros sa r sb Hr HPa
      [(_ & Hm & _ & Hcur & _)|(_ & sf & Hf & _ & Hcur & _ & Hinfo)]%VersionDeleteState_Delete_inv.
    - destruct HPa as [Ha Hb]. split; congruence.
    - assert (Hne : chunk_of S r ≠ block).
      { intros <-. apply Hblock. by apply list_elem_of_fmap_2. }
      destruct (Hflush_keeps _ _ HPa Hf) as [_ Hkeep].
      split; [congruence|]. rewrite Hinfo.
      destruct (info (manager sf) !! chunk_of S r); [done|].
      by rewrite lookup_insert_ne. }
  simpl. by destruct (Hflush_keeps _ _ HP Hflush).
Qed.

Lemma keeps_stamps_refl m : keeps_stamps m m.
Proof. intros block ci Hci. by exists ci. Qed.

Lemma keeps_stamps_trans m1 m2 m3 :
  keeps_stamps m1 m2 → keeps_stamps m2 m3 → keeps_stamps m1 m3.
Proof.
  intros H12 H23 block ci Hci.
  destruct (H12 _ _ Hci) as (ci2 & Hci2 & Hs2 & Ht2 & Hi2).
  destruct (H23 _ _ Hci2) as (ci3 & Hci3 & Hs3 & Ht3 & Hi3).
  exists ci3. repeat split; congruence.
Qed.

Lemma Flush_keeps_stamps s s' :
  Flush s = Ok s' → keeps_stamps (manager s) (manager s').
Proof.
  intros [[_ ->]|(_ & k & cr & _ & _ & Hinfo & _)]%Flush_inv;
    [apply keeps_stamps_refl|].
  intros block ci Hci. rewrite Hinfo, lookup_alter.
  case_decide; [subst|by exists ci].
  rewrite Hci. simpl. eexists. split; [done|]. by destruct ci.
Qed.

Lemma VersionDeleteState_Delete_keeps_stamps s row_id s' :
  VersionDeleteState_Delete S s row_id = Ok s' →
  keeps_stamps (manager s) (manager s').
Proof.
  intros [(_ & -> & _)|(_ & sf & Hf & _ & _ & _ & Hinfo)]%VersionDeleteState_Delete_inv;
    [apply keeps_stamps_refl|].
  eapply keeps_stamps_trans; [by apply Flush_keeps_stamps|].
  intros block ci Hci. rewrite Hinfo.
  destruct (info (manager sf) !! chunk_of S row_id) eqn:Hc; [by exists ci|].
  rewrite lookup_insert_ne by congruence. by exists ci.
Qed.

(** X5.  Delete keeps every entry of the map: an entry that was there is
    still there, of the same kind, with its first row and with its insert
    stamps; only its deleted offsets can have changed. *)
Theorem Delete_keeps_entries_and_stamps mem m txn row_ids m' txn' :
  Delete S mem m txn row_ids = Ok (m', txn') → keeps_stamps m m'.
Proof.
  unfold Delete. cbv zeta.
  set (s0 := new_VersionDeleteState S (log GetExclusiveLock m) txn
               (base_row (log GetExclusiveLock m))).
  intros Hdelete.
  destruct (foldlM _ _ s0) as [s1|] eqn:Hfold; simpl in Hdelete; [|done].
  destruct (Flush s1) as [s2|] eqn:Hflush; simpl in Hdelete; [|done].
  injection Hdelete as <- <-.
  apply (foldlM_Delete_invariant (λ s, keeps_stamps m (manager s)) _ _ _) in Hfold.
  - intros block ci Hci.
    apply (keeps_stamps_trans _ _ _ Hfold (Flush_keeps_stamps _ _ Hflush)). exact Hci.
  - intros sa r sb _ Ha Hstep.
    eapply keeps_stamps_trans; [exact Ha|].
    by eapply VersionDeleteState_Delete_keeps_stamps.
  - intros block ci Hci. by exists ci.
Qed.

Lemma extends_refl t : extends t t.
Proof. by repeat split. Qed.


Lemma Flush_extends s s' : Flush s = Ok s' → extends (transaction s) (transaction s').
Proof.
  intros [[_ ->]|(_ & k & cr & _ & _ & _ & Ht & _)]%Flush_inv; [apply extends_refl|].
  rewrite Ht. repeat split. simpl. by apply prefix_app_r.
Qed.

Lemma VersionDeleteState_Delete_extends s row_id s' :
  VersionDeleteState_Delete S s row_id = Ok s' →
  extends (transaction s) (transaction s').
Proof.
  intros [(_ & _ & -> & _)|(_ & sf & Hf & -> & _)]%VersionDeleteState_Delete_inv;
    [apply extends_refl|by apply Flush_extends].
Qed.


(** ** Delete: the rows are recorded as deleted *)

Lemma mark_deleted_keep tr rows_ d o :
  d !! o = Some (transaction_id tr) →
  mark_deleted tr rows_ d !! o = Some (transaction_id tr).
Proof.
  revert d. induction rows_ as [|x rows_ IH]; intros d Hd; [done|].
  simpl. apply IH. destruct (decide (x = o)) as [->|Hne];
    [apply lookup_insert_eq|by rewrite lookup_insert_ne].
Qed.

Lemma mark_deleted_in tr rows_ d o :
  o ∈ rows_ → mark_deleted tr rows_ d !! o = Some (transaction_id tr).
Proof.
  revert d. induction rows_ as [|x rows_ IH]; intros d Hin; [by apply elem_of_nil in Hin|].
  simpl. apply elem_of_cons in Hin as [->|Hin]; [|by apply IH].
  apply mark_deleted_keep, lookup_insert_eq.
Qed.

Lemma deleted_of_ChunkInfo_Delete tr rows_ ci :
  deleted_of (ChunkInfo_Delete tr rows_ ci) = mark_deleted tr rows_ (deleted_of ci).
Proof. by destruct ci. Qed.

Lemma Flush_keeps_marked s s' block offset :
  Flush s = Ok s' →
  marked (manager s) block offset (transaction_id (transaction s)) →
  marked (manager s') block offset (transaction_id (transaction s)).
Proof.
  intros [[_ ->]|(_ & k & cr & _ & _ & Hinfo & _)]%Flush_inv (ci & Hci & Hd); [by exists ci|].
  unfold marked. rewrite Hinfo, lookup_alter.
  case_decide; [subst|by exists ci].
  rewrite Hci. simpl. eexists. split; [done|].
  rewrite deleted_of_ChunkInfo_Delete. by apply mark_deleted_keep.
Qed.

Lemma VersionDeleteState_Delete_keeps_marked s row_id s' block offset :
  VersionDeleteState_Delete S s row_id = Ok s' →
  marked (manager s) block offset (transaction_id (transaction s)) →
  marked (manager s') block offset (transaction_id (transaction s)).
Proof.
  intros [(_ & -> & _)|(_ & sf & Hf & _ & _ & _ & Hinfo)]%VersionDeleteState_Delete_inv
    Hmarked; [done|].
  destruct (Flush_keeps_marked _ _ _ _ Hf Hmarked) as (ci & Hci & Hd).
  exists ci. split; [|done]. rewrite Hinfo.
  destruct (info (manager sf) !! chunk_of S row_id) eqn:Hc; [done|].
  rewrite lookup_insert_ne; [done|congruence].
Qed.

Lemma run_keeps_marked ids s s' block offset :
  foldlM (VersionDeleteState_Delete S) ids s ≫= Flush = Ok s' →
  marked (manager s) block offset (transaction_id (transaction s)) →
  marked (manager s') block offset (transaction_id (transaction s)).
Proof.
  intros Hrun Hmarked.
  destruct (foldlM _ ids s) as [s1|] eqn:Hfold; simpl in Hrun; [|done].
  set (t := transaction_id (transaction s)) in *.
  apply (foldlM_Delete_invariant
           (λ sa, transaction_id (transaction sa) = t
                  ∧ marked (manager sa) block offset t) _ _ _) in Hfold
    as [Ht1 Hm1]; [| |done].
  - rewrite <- Ht1 in Hm1 |- *. by eapply Flush_keeps_marked.
  - intros sa r sb _ [Hta Hma] Hstep. split.
    + apply VersionDeleteState_Delete_extends in Hstep as [-> _]. exact Hta.
    + rewrite <- Hta in Hma |- *. by eapply VersionDeleteState_Delete_keeps_marked.
Qed.

Lemma Flush_marks_accumulated base s pre s' :
  accumulating S base s pre →
  (pre ≠ [] → is_Some (info (manager s) !! current_chunk s)) →
  Flush s = Ok s' →
  ∀ r, r ∈ pre → marked (manager s') (r / S) (r `mod` S) (transaction_id (transaction s)).
Proof.
  intros (Hcount & Hrows & Hlen & Hb & Hcur) Hentry Hflush r Hr.
  destruct pre as [|x pre]; [by apply elem_of_nil in Hr|].
  destruct Hcur as (Hchunk & Hinfo & Hrow & Hblock).
  destruct (Hentry ltac:(done)) as [ci Hci]. rewrite Hchunk in Hci.
  apply Flush_inv in Hflush as [[Hzero _]|(_ & k & cr & Hk & _ & Hinfo' & _)].
  { rewrite Hcount in Hzero. simpl in Hzero. lia. }
  assert (k = x / S) as -> by congruence.
  rewrite Hcount, Nat2Z.id, Hrows in Hinfo'.
  unfold marked. rewrite Hinfo', (Hblock r Hr), lookup_alter_eq, Hci. simpl.
  eexists. split; [done|]. rewrite deleted_of_ChunkInfo_Delete.
  apply mark_deleted_in.
  exact (list_elem_of_fmap_2 (λ r0 : Z, r0 `mod` S) (x :: pre) r Hr).
Qed.

Lemma Delete_marks base ids :
  S < 2 ^ 63 → 0 ≤ base →
  ∀ pre s s',
    accumulating S base s pre →
    (pre ≠ [] → is_Some (info (manager s) !! current_chunk s)) →
    Forall (valid_row_id base) (pre ++ ids) →
    Z.of_nat (length pre) + Z.of_nat (length ids) ≤ S →
    foldlM (VersionDeleteState_Delete S) ids s ≫= Flush = Ok s' →
    ∀ r, r ∈ pre ++ ids →
      marked (manager s') (r / S) (r `mod` S) (transaction_id (transaction s)).
Proof.
  intros HS Hbase. induction ids as [|r ids IH];
    intros pre s s' Hacc Hentry Hvalid Hroom Hrun r' Hr'.
  - rewrite app_nil_r in Hr'. simpl in Hrun.
    by eapply Flush_marks_accumulated.
  - apply Forall_app in Hvalid as Hv. destruct Hv as [Hpre Hv].
    apply Forall_cons in Hv as [Hr Hids].
    simpl in Hroom.
    assert (Hchunk : chunk_of S r = r / S)
      by (unfold chunk_of; by apply (chunk_idx_value S vector_size_pos base)).
    assert (Hcase : (∃ x pre', pre = x :: pre' ∧ r / S = x / S)
                    ∨ match pre with [] => True | x :: _ => r / S ≠ x / S end).
    { destruct pre as [|x pre']; [by right|].
      destruct (decide (r / S = x / S)); [left; eauto|by right]. }
    destruct Hcase as [Hsame|Hchange].
    + destruct (Delete_same_block S vector_size_pos base s pre r HS Hbase Hacc Hr Hsame
                  ltac:(lia)) as (s1 & Hstep & Hacc1 & Htxn).
      simpl in Hrun. rewrite Hstep in Hrun. simpl in Hrun.
      destruct Hsame as (x & pre' & -> & Hsame).
      assert (Hcur : current_chunk s = x / S) by (by destruct Hacc as (_ & _ & _ & _ & ? & _)).
      apply VersionDeleteState_Delete_inv in Hstep
        as [(_ & Hm & _ & _ & Hc)|(Hne & _)]; [|congruence].
      rewrite <- Htxn. apply (IH ((x :: pre') ++ [r]) s1 s'); try done.
      * intros _. rewrite Hc, Hm. by apply Hentry.
      * by rewrite <- app_assoc.
      * rewrite length_app. simpl in *. lia.
      * by rewrite <- app_assoc.
    + destruct (Delete_block_change S vector_size_pos base s pre r vector_size_pos Hbase
                  Hacc Hpre Hr Hchange) as (s1 & Hstep & Hacc1 & Hundo1).
      simpl in Hrun. rewrite Hstep in Hrun. simpl in Hrun.
      assert (Hcur : current_chunk s ≠ r / S).
      { destruct Hacc as (_ & _ & _ & _ & Hcur). destruct pre as [|x pre'].
        - rewrite Hcur. unfold to_index_t. change ((-1) `mod` 2 ^ 64) with (2 ^ 64 - 1).
          destruct Hr as [Hr0 Hr1].
          pose proof (block_bounds S vector_size_pos r Hr0). lia.
        - destruct Hcur as (-> & _). congruence. }
      pose proof (VersionDeleteState_Delete_extends _ _ _ Hstep) as (Htid & _).
      apply VersionDeleteState_Delete_inv in Hstep
        as [(Heq & _)|(_ & sf & Hf & Ht1 & _ & Hc1 & Hinfo1)]; [congruence|].
      assert (Hentry1 : is_Some (info (manager s1) !! current_chunk s1)).
      { rewrite Hc1, Hinfo1.
        destruct (info (manager sf) !! chunk_of S r) eqn:Hfound; [by rewrite Hfound|].
        by rewrite lookup_insert_eq. }
      rewrite <- Htid.
      apply elem_of_app in Hr' as [Hin|Hin].
      * apply (run_keeps_marked ids s1 s'); [done|]. rewrite Htid.
        destruct (Flush_marks_accumulated base s pre sf Hacc Hentry Hf r' Hin)
          as (ci & Hci & Hd).
        exists ci. split; [|done]. rewrite Hinfo1.
        destruct (info (manager sf) !! chunk_of S r) eqn:Hfound; [done|].
        rewrite lookup_insert_ne; [done|congruence].
      * apply (IH [r] s1 s'); try done.
        -- by apply Forall_cons.
        -- simpl. lia.
Qed.

(** X7.  After Delete, every row of the vector is recorded as deleted by the
    transaction, in the entry of its block and at its offset in the block:
    no row is lost between the batches, the last batch included. *)
Theorem Delete_marks_every_row mem m txn row_ids m' txn' :
  S < 2 ^ 63 → 0 ≤ base_row m → count row_ids ≤ S →
  Forall (λ i, base_row m ≤ cells mem (data row_ids) i < 2 ^ 63)
    (Exec_indices mem row_ids) →
  Delete S mem m txn row_ids = Ok (m', txn') →
  ∀ r, r ∈ relative_ids mem m row_ids →
    marked m' (r / S) (r `mod` S) (transaction_id txn).
Proof.
  intros HS Hbase Hsize Hids Hdelete r Hr.
  assert (Hrel : Delete_row_ids mem m row_ids = relative_ids mem m row_ids).
  { unfold Delete_row_ids, relative_ids. apply Forall_fmap_ext_1.
    eapply Forall_impl; [exact Hids|]. intros i Hi. simpl in Hi. simpl.
    rewrite to_index_t_small by lia. apply to_row_t_small. lia. }
  assert (Hvalid : Forall (valid_row_id (base_row m)) (relative_ids mem m row_ids)).
  { unfold relative_ids. apply Forall_fmap.
    eapply Forall_impl; [exact Hids|]. intros i Hi. simpl in *.
    unfold valid_row_id. lia. }
  assert (Hlen : Z.of_nat (length (relative_ids mem m row_ids)) ≤ S).
  { unfold relative_ids, Exec_indices. rewrite !length_fmap, length_seqZ. lia. }
  unfold Delete in Hdelete. cbv zeta in Hdelete. rewrite Hrel in Hdelete.
  set (s0 := new_VersionDeleteState S (log GetExclusiveLock m) txn
               (base_row (log GetExclusiveLock m))) in *.
  destruct (foldlM _ _ s0) as [s1|] eqn:Hfold; simpl in Hdelete; [|done].
  destruct (Flush s1) as [s2|] eqn:Hflush; simpl in Hdelete; [|done].
  injection Hdelete as <- <-.
  change (marked (manager s2) (r / S) (r `mod` S) (transaction_id (transaction s0))).
  apply (Delete_marks (base_row m) (relative_ids mem m row_ids) HS Hbase [] s0 s2).
  - unfold accumulating, s0. simpl. by rewrite length_replicate.
  - done.
  - exact Hvalid.
  - simpl. lia.
  - by rewrite Hfold.
  - exact Hr.
Qed.

(** ** Append: the blocks and the slots it touches *)

Lemma Append_info m transaction row_start count commit_id :
  0 ≤ row_start < 2 ^ 63 →
  info (Append S m transaction row_start count commit_id)
  = info (Append_loop S (Z.to_nat count) commit_id
            (GetInsertInfo S (log GetExclusiveLock m) (row_start / S))
            (row_start / S) (row_start - row_start / S * S)).
Proof.
  intros Hstart.
  pose proof (block_bounds S vector_size_pos row_start ltac:(lia)) as [Hb Hrow].
  unfold Append. simpl.
  rewrite (quot_div S vector_size_pos) by lia.
  rewrite (to_index_t_small (row_start / S)) by lia.
  rewrite (to_index_t_small (_ * _)) by lia.
  by rewrite (to_index_t_small (row_start - _)) by lia.
Qed.

Lemma GetInsertInfo_lookup_ne m chunk_idx block :
  block ≠ chunk_idx → info (GetInsertInfo S m chunk_idx) !! block = info m !! block.
Proof.
  intros Hne. unfold GetInsertInfo, info_find.
  destruct (info m !! chunk_idx) as [ci|]; simpl; [destruct (info_type ci)|]; simpl;
    try done; by rewrite lookup_insert_ne.
Qed.

Lemma Append_loop_frame n commit_id m chunk_idx idx_in_chunk block :
  S < 2 ^ 63 → 0 ≤ chunk_idx → 0 ≤ idx_in_chunk < S →
  chunk_idx * S + idx_in_chunk + Z.of_nat n < 2 ^ 63 →
  block < chunk_idx ∨ (chunk_idx * S + idx_in_chunk + Z.of_nat n) / S < block →
  info (Append_loop S n commit_id m chunk_idx idx_in_chunk) !! block = info m !! block.
Proof.
  intros HS. revert m chunk_idx idx_in_chunk.
  induction n as [|n IH]; intros m chunk_idx idx_in_chunk Hc Hj Hmax Hblock; [done|].
  pose proof (block_bounds S vector_size_pos
                (chunk_idx * S + idx_in_chunk + Z.of_nat (Datatypes.S n)) ltac:(nia))
    as [_ Hz].
  assert (Hne : block ≠ chunk_idx) by nia.
  simpl. rewrite to_index_t_small by lia.
  case_decide as Hnext.
  - assert (block ≠ chunk_idx + 1) by nia.
    rewrite to_index_t_small by nia.
    rewrite IH; [|nia|lia|nia|].
    + rewrite GetInsertInfo_lookup_ne by done. simpl. by rewrite lookup_alter_ne.
    + replace ((chunk_idx + 1) * S + 0 + Z.of_nat n)
        with (chunk_idx * S + idx_in_chunk + Z.of_nat (Datatypes.S n)) by lia.
      destruct Hblock as [Hlt|Hgt]; [left; lia|by right].
  - rewrite IH; [|lia|lia|lia|].
    + simpl. by rewrite lookup_alter_ne.
    + replace (chunk_idx * S + (idx_in_chunk + 1) + Z.of_nat n)
        with (chunk_idx * S + idx_in_chunk + Z.of_nat (Datatypes.S n)) by lia.
      exact Hblock.
Qed.

Lemma Append_leaves_other_blocks_aux m transaction row_start count commit_id block :
  S < 2 ^ 63 → 0 ≤ row_start → 0 ≤ count → row_start + count < 2 ^ 63 →
  block < row_start / S ∨ (row_start + count) / S < block →
  info (Append S m transaction row_start count commit_id) !! block = info m !! block.
Proof.
  intros HS Hstart Hcount Hend Hblock.
  pose proof (block_bounds S vector_size_pos row_start Hstart) as [Hb Hrow].
  rewrite Append_info by lia.
  rewrite Append_loop_frame; [|done|lia|lia|lia|].
  - rewrite GetInsertInfo_lookup_ne; [done|].
    pose proof (block_bounds S vector_size_pos (row_start + count) ltac:(lia)). nia.
  - replace (row_start / S * S + (row_start - row_start / S * S) + Z.of_nat (Z.to_nat count))
      with (row_start + count) by lia.
    exact Hblock.
Qed.

(** X8.  Append touches the entries of the blocks from the block of
    row_start to the block of row_start + count only: the entry of every
    other block, present or absent, is as before. *)
Theorem Append_leaves_other_blocks m transaction row_start count commit_id block :
  S < 2 ^ 63 → 0 ≤ row_start → 0 ≤ count → row_start + count < 2 ^ 63 →
  block < row_start / S ∨ (row_start + count) / S < block →
  info (Append S m transaction row_start count commit_id) !! block = info m !! block.
Proof. apply Append_leaves_other_blocks_aux. Qed.

Lemma stamp_has_insert_info m chunk_idx idx_in_chunk commit_id block :
  has_insert_info m block →
  has_insert_info (set_info (alter (stamp commit_id idx_in_chunk) chunk_idx) m) block.
Proof.
  intros (s & d & ins & Hb). unfold has_insert_info. simpl. rewrite lookup_alter.
  case_decide; [subst; rewrite Hb; simpl|]; eauto.
Qed.

Lemma GetInsertInfo_keeps_insert_info m chunk_idx block :
  has_insert_info m block → has_insert_info (GetInsertInfo S m chunk_idx) block.
Proof.
  intros (s & d & ins & Hb).
  destruct (decide (block = chunk_idx)) as [->|Hne];
    [apply GetInsertInfo_has_insert_info|].
  unfold has_insert_info. rewrite GetInsertInfo_lookup_ne by done. eauto.
Qed.

Lemma Append_loop_has_insert_info n commit_id m chunk_idx idx_in_chunk block :
  has_insert_info m block →
  has_insert_info (Append_loop S n commit_id m chunk_idx idx_in_chunk) block.
Proof.
  revert m chunk_idx idx_in_chunk.
  induction n as [|n IH]; intros m chunk_idx idx_in_chunk Hins; simpl; [done|].
  case_decide; apply IH; [apply GetInsertInfo_keeps_insert_info|];
    by apply stamp_has_insert_info.
Qed.

Lemma Append_loop_spans n commit_id m chunk_idx idx_in_chunk block :
  S < 2 ^ 63 → 0 ≤ chunk_idx → 0 ≤ idx_in_chunk < S →
  chunk_idx * S + idx_in_chunk + Z.of_nat n < 2 ^ 63 →
  has_insert_info m chunk_idx →
  chunk_idx ≤ block ≤ (chunk_idx * S + idx_in_chunk + Z.of_nat n) / S →
  has_insert_info (Append_loop S n commit_id m chunk_idx idx_in_chunk) block.
Proof.
  intros HS. revert m chunk_idx idx_in_chunk.
  induction n as [|n IH]; intros m chunk_idx idx_in_chunk Hc Hj Hmax Hins Hblock.
  - simpl. rewrite Z.add_0_r in Hblock.
    rewrite (block_unique S chunk_idx) in Hblock by lia.
    by replace block with chunk_idx by lia.
  - simpl. rewrite to_index_t_small by lia.
    pose proof (stamp_has_insert_info m chunk_idx idx_in_chunk commit_id chunk_idx Hins)
      as Hins1.
    case_decide as Hnext.
    + rewrite to_index_t_small by nia.
      destruct (decide (block = chunk_idx)) as [->|Hne].
      * by apply Append_loop_has_insert_info, GetInsertInfo_keeps_insert_info.
      * apply IH; [nia|lia|nia|apply GetInsertInfo_has_insert_info|].
        replace ((chunk_idx + 1) * S + 0 + Z.of_nat n)
          with (chunk_idx * S + idx_in_chunk + Z.of_nat (Datatypes.S n)) by lia.
        lia.
    + apply IH; [lia|lia|lia|done|].
      replace (chunk_idx * S + (idx_in_chunk + 1) + Z.of_nat n)
        with (chunk_idx * S + idx_in_chunk + Z.of_nat (Datatypes.S n)) by lia.
      exact Hblock.
Qed.

(** X9.  After Append, every block from the block of row_start to the block
    of row_start + count holds an insert-info.  That includes the block that
    starts at row_start + count when the appended rows end on a block
    boundary, of which no row was appended, and the block of row_start when
    count is 0. *)
Theorem Append_covers_blocks m transaction row_start count commit_id block :
  S < 2 ^ 63 → 0 ≤ row_start → 0 ≤ count → row_start + count < 2 ^ 63 →
  row_start / S ≤ block ≤ (row_start + count) / S →
  has_insert_info (Append S m transaction row_start count commit_id) block.
Proof.
  intros HS Hstart Hcount Hend Hblock.
  pose proof (block_bounds S vector_size_pos row_start Hstart) as [Hb Hrow].
  unfold has_insert_info. rewrite Append_info by lia.
  apply Append_loop_spans; [done|lia|lia|lia|apply GetInsertInfo_has_insert_info|].
  replace (row_start / S * S + (row_start - row_start / S * S) + Z.of_nat (Z.to_nat count))
    with (row_start + count) by lia.
  exact Hblock.
Qed.

Lemma slot_info m m' block offset :
  info m' !! block = info m !! block → slot m' block offset = slot m block offset.
Proof. unfold slot. by intros ->. Qed.

Lemma GetInsertInfo_slot m chunk_idx block offset :
  slot (GetInsertInfo S m chunk_idx) block offset = slot m block offset.
Proof.
  destruct (decide (block = chunk_idx)) as [->|Hne];
    [|by apply slot_info, GetInsertInfo_lookup_ne].
  unfold slot, GetInsertInfo, info_find.
  destruct (info m !! chunk_idx) as [[s d|s d ins]|] eqn:Hk; simpl;
    rewrite ?lookup_insert_eq, ?Hk; done.
Qed.

Lemma stamp_slot_ne m chunk_idx idx_in_chunk commit_id block offset :
  block ≠ chunk_idx ∨ offset ≠ idx_in_chunk →
  slot (set_info (alter (stamp commit_id idx_in_chunk) chunk_idx) m) block offset
  = slot m block offset.
Proof.
  intros Hne. unfold slot. simpl. rewrite lookup_alter.
  case_decide as Heq; [subst|done].
  destruct Hne as [?|Hne]; [done|].
  destruct (info m !! block) as [[s d|s d ins]|]; simpl; [done| |done].
  by rewrite lookup_insert_ne.
Qed.

Lemma Append_loop_slot n commit_id m chunk_idx idx_in_chunk block offset :
  S < 2 ^ 63 → 0 ≤ chunk_idx → 0 ≤ idx_in_chunk < S →
  chunk_idx * S + idx_in_chunk + Z.of_nat n < 2 ^ 63 →
  0 ≤ offset < S →
  ¬ (chunk_idx * S + idx_in_chunk ≤ block * S + offset
     < chunk_idx * S + idx_in_chunk + Z.of_nat n) →
  slot (Append_loop S n commit_id m chunk_idx idx_in_chunk) block offset
  = slot m block offset.
Proof.
  intros HS. revert m chunk_idx idx_in_chunk.
  induction n as [|n IH]; intros m chunk_idx idx_in_chunk Hc Hj Hmax Ho Hout; [done|].
  simpl. rewrite to_index_t_small by lia.
  assert (Hne : block ≠ chunk_idx ∨ offset ≠ idx_in_chunk).
  { destruct (decide (block = chunk_idx)) as [->|]; [right|by left].
    intros ->. apply Hout. lia. }
  case_decide as Hnext.
  - rewrite to_index_t_small by nia.
    rewrite IH; [|nia|lia|nia|done|nia].
    rewrite GetInsertInfo_slot. by apply stamp_slot_ne.
  - rewrite IH; [|lia|lia|lia|done|lia].
    by apply stamp_slot_ne.
Qed.

(** X10.  Append changes no stamp but those of the appended rows: the slot
    of every row outside row_start .. row_start + count - 1 holds the commit
    id it held before, or none as before. *)
Theorem Append_changes_no_other_stamp m transaction row_start count commit_id block offset :
  S < 2 ^ 63 → 0 ≤ row_start → 0 ≤ count → row_start + count < 2 ^ 63 →
  0 ≤ offset < S →
  ¬ (row_start ≤ block * S + offset < row_start + count) →
  slot (Append S m transaction row_start count commit_id) block offset
  = slot m block offset.
Proof.
  intros HS Hstart Hcount Hend Ho Hout.
  pose proof (block_bounds S vector_size_pos row_start Hstart) as [Hb Hrow].
  unfold slot at 1. rewrite Append_info by lia.
  fold (slot (Append_loop S (Z.to_nat count) commit_id
                (GetInsertInfo S (log GetExclusiveLock m) (row_start / S))
                (row_start / S) (row_start - row_start / S * S)) block offset).
  rewrite Append_loop_slot; [|done|lia|lia|lia|done|lia].
  by rewrite GetInsertInfo_slot.
Qed.

(** ** RevertAppend after Append *)

Lemma RevertAppend_lookup m row_start row_end :
  0 ≤ row_start < 2 ^ 63 → 0 ≤ row_end < 2 ^ 63 →
  ∃ m', RevertAppend S m row_start row_end = Some m'
        ∧ ∀ block, info m' !! block =
                   if decide (first_row_within S block row_start row_end) then None
                   else info m !! block.
Proof.
  intros Hstart Hend. unfold RevertAppend.
  rewrite !(quot_div S vector_size_pos) by lia.
  pose proof (block_bounds S vector_size_pos row_start ltac:(lia)) as [Hbs _].
  pose proof (block_bounds S vector_size_pos row_end ltac:(lia)) as [Hbe _].
  set (cs := row_start / S + (if decide (Z.rem row_start S = 0) then 0 else 1)).
  assert (0 ≤ cs < 2 ^ 64) by (unfold cs; destruct (decide _); lia).
  rewrite !to_index_t_small by lia.
  destruct (RevertAppend_loop_erases (Z.to_nat (row_end / S + 1 - cs))
              (log GetExclusiveLock m) cs (row_end / S))
    as (m' & Hloop & _ & _ & Hinfo); [lia..|].
  rewrite Hloop. simpl. eexists. split; [reflexivity|].
  intros block. simpl. rewrite Hinfo. simpl. unfold first_row_within.
  pose proof (chunk_start_spec S vector_size_pos row_start block ltac:(lia)) as Hcs.
  pose proof (chunk_end_spec S vector_size_pos row_end block ltac:(lia)) as Hce.
  fold cs in Hcs.
  destruct (decide (cs ≤ block ≤ row_end / S));
    [rewrite decide_True | rewrite decide_False]; tauto.
Qed.

(** X11.  Reverting an append restores the version map: when row_start is
    block-aligned and the blocks from row_start to row_start + count had no
    entry, Append(row_start, count) followed by
    RevertAppend(row_start, row_start + count) leaves the map as it was
    before the append, the entry made for the next block included. *)
Theorem RevertAppend_undoes_Append m transaction row_start count commit_id :
  S < 2 ^ 63 → 0 ≤ row_start → 0 ≤ count → row_start + count < 2 ^ 63 →
  row_start `mod` S = 0 →
  (∀ block, row_start / S ≤ block ≤ (row_start + count) / S → info m !! block = None) →
  ∃ m', RevertAppend S (Append S m transaction row_start count commit_id)
          row_start (row_start + count) = Some m'
        ∧ info m' = info m.
Proof.
  intros HS Hstart Hcount Hend Haligned Hfresh.
  destruct (RevertAppend_lookup (Append S m transaction row_start count commit_id)
              row_start (row_start + count)) as (m' & Hrevert & Hinfo); [lia..|].
  exists m'. split; [exact Hrevert|].
  apply map_eq. intros block. rewrite Hinfo.
  pose proof (Z.div_mod row_start S ltac:(lia)) as Hdm.
  pose proof (chunk_end_spec S vector_size_pos (row_start + count) block ltac:(lia)) as Hce.
  unfold first_row_within. case_decide as Hin.
  - symmetry. apply Hfresh. split; [nia|tauto].
  - apply Append_leaves_other_blocks_aux; [done..|].
    destruct (decide (block < row_start / S)); [by left|right].
    apply Z.lt_nge. intros Hle. apply Hin. split; [nia|tauto].
Qed.

(** X12.  RevertAppend is idempotent on the version map: reverting the same
    range a second time changes no entry. *)
Theorem RevertAppend_twice m row_start row_end m1 :
  0 ≤ row_start < 2 ^ 63 → 0 ≤ row_end < 2 ^ 63 →
  RevertAppend S m row_start row_end = Some m1 →
  ∃ m2, RevertAppend S m1 row_start row_end = Some m2 ∧ info m2 = info m1.
Proof.
  intros Hstart Hend Hfirst.
  destruct (RevertAppend_lookup m row_start row_end Hstart Hend) as (m1' & H1 & Hinfo1).
  assert (m1' = m1) as -> by congruence.
  destruct (RevertAppend_lookup m1 row_start row_end Hstart Hend) as (m2 & H2 & Hinfo2).
  exists m2. split; [exact H2|].
  apply map_eq. intros block. rewrite Hinfo2, Hinfo1. by case_decide.
Qed.

End StorageExtras.

(** * Further properties of the expression executor *)

Section ExecutionExtras.

Import Execution.

Variable ExpressionState : Type.
Variable Reset : ExpressionState → ExpressionState.
Variable Vector_Verify : Memory → Vector → bool.
Variable R : Routines ExpressionState.

Local Abbreviation Execute := (Execute ExpressionState Reset Vector_Verify R).
Local Abbreviation ExecuteExpression :=
  (ExecuteExpression ExpressionState Reset Vector_Verify R).
Local Abbreviation ExecuteExpression_vector :=
  (ExecuteExpression_vector ExpressionState Reset Vector_Verify R).
Local Abbreviation ExecuteExpression_chunk :=
  (ExecuteExpression_chunk ExpressionState Reset Vector_Verify R).
Local Abbreviation EvaluateScalar :=
  (EvaluateScalar ExpressionState Reset Vector_Verify R).
Local Abbreviation DefaultSelect :=
  (DefaultSelect ExpressionState Reset Vector_Verify R).
Local Abbreviation SelectExpression :=
  (SelectExpression ExpressionState Reset Vector_Verify R).

(** ** Execute *)

(** X13.  Execute returns only vectors of the declared type of the
    expression that pass Verify, and only for the classes it dispatches on:
    an expression of another class, a vector of another type and a vector
    that fails Verify all make it fail. *)
Theorem Execute_postcondition ex mem expr state result state' mem' result' :
  Execute ex mem expr state result = Ok (state', mem', result') →
  type result' = return_type expr
  ∧ Vector_Verify mem' result' = true
  ∧ expression_class expr ≠ OTHER_CLASS.
Proof.
  unfold Execution.Execute, Verify.
  match goal with
  | |- context [match expression_class expr with _ => _ end] =>
      destruct (match expression_class expr with BOUND_REF => _ | _ => _ end)
        as [[[st1 mem1] r1]|] eqn:Hroutine
  end; simpl; [|done].
  case_bool_decide as Htype; simpl; [|done].
  destruct (Vector_Verify mem1 r1) eqn:Hverify; simpl; [|done].
  intros [= _ <- <-]. repeat split; try done.
  intros Hclass. by rewrite Hclass in Hroutine.
Qed.

(** ** ExecuteExpression *)

Lemma reconcile_count c initial_data mem result mem' result' :
  reconcile c initial_data mem result = Ok (mem', result') →
  count result' = size c.
Proof.
  unfold reconcile.
  destruct (IsConstant result); [|destruct (decide (count result ≠ size c)) as [|Heq]];
    simpl; try done.
  - pose proof (Set_shape mem (broadcast_target c initial_data result)
                  (GetValue mem result 0)) as (Hcount & _).
    destruct (Set_ _ _ _) as [mem2 result2]. simpl in *.
    case_bool_decide; simpl; [|done]. by intros [= _ <-].
  - case_bool_decide; simpl; [|done]. intros [= _ <-].
    by destruct (decide (count result = size c)).
Qed.

Lemma ExecuteExpression_inv ex mem expr_idx result ex' mem' result' :
  ExecuteExpression ex mem expr_idx result = Ok (ex', mem', result') →
  ∃ expr state root mem1 result1 mem2 result2,
    0 ≤ expr_idx
    ∧ expressions ex !! Z.to_nat expr_idx = Some expr
    ∧ states ex !! Z.to_nat expr_idx = Some state
    ∧ type result = return_type expr
    ∧ Execute ex mem expr (root_state state) (set_owned_data None result)
      = Ok (root, mem1, result1)
    ∧ match chunk ex with
      | Some c => reconcile c (data result) mem1 result1
      | None => Ok (mem1, result1)
      end = Ok (mem2, result2)
    ∧ ex' = set_root_state ex (Z.to_nat expr_idx) root
    ∧ mem' = mem2
    ∧ result' = restore_owned_data (owned_data result) (data result) result2.
Proof.
  unfold Execution.ExecuteExpression.
  case_bool_decide as Hidx; simpl; [|done].
  destruct (expressions ex !! Z.to_nat expr_idx) as [expr|] eqn:Hexpr; [|done].
  destruct (states ex !! Z.to_nat expr_idx) as [state|] eqn:Hstate; [|done].
  case_bool_decide as Htype; simpl; [|done].
  destruct (Execution.Execute _ _ _ _ _ _ _ _ _) as [[[root mem1] result1]|] eqn:Hexec;
    simpl; [|done].
  destruct (match chunk ex with Some c => _ | None => _ end)
    as [[mem2 result2]|] eqn:Hrec; simpl; [|done].
  intros [= <- <- <-].
  exists expr, state, root, mem1, result1, mem2, result2.
  repeat split; try done. lia.
Qed.

(** X14.  Whenever ExecuteExpression succeeds under an input chunk, the
    result has the row count of the chunk, be the vector of the routine
    constant or not. *)
Theorem ExecuteExpression_length ex mem expr_idx result c ex' mem' result' :
  chunk ex = Some c →
  ExecuteExpression ex mem expr_idx result = Ok (ex', mem', result') →
  count result' = size c.
Proof.
  intros Hchunk
    (expr & state & root & mem1 & r1 & mem2 & r2 & _ & _ & _ & _ & _ & Hrec & _ & _ & ->)
      %ExecuteExpression_inv.
  rewrite Hchunk in Hrec. apply reconcile_count in Hrec.
  by destruct (restore_owned_data_shape (owned_data result) (data result) r2) as (-> & _).
Qed.

(** X15.  Without an input chunk, ExecuteExpression does not reconcile: it
    returns the vector of the routine with its count, selection vector, data
    and null mask, whatever its length, and the memory the routine left. *)
Theorem ExecuteExpression_without_chunk ex mem expr_idx result ex' mem' result' :
  chunk ex = None →
  ExecuteExpression ex mem expr_idx result = Ok (ex', mem', result') →
  ∃ expr state root result1,
    expressions ex !! Z.to_nat expr_idx = Some expr
    ∧ states ex !! Z.to_nat expr_idx = Some state
    ∧ Execute ex mem expr (root_state state) (set_owned_data None result)
      = Ok (root, mem', result1)
    ∧ count result' = count result1 ∧ sel_vector result' = sel_vector result1
    ∧ data result' = data result1 ∧ nullmask result' = nullmask result1.
Proof.
  intros Hchunk
    (expr & state & root & mem1 & r1 & mem2 & r2 & _ & He & Hs & _ & Hexec & Hrec & _ & -> & ->)
      %ExecuteExpression_inv.
  rewrite Hchunk in Hrec. injection Hrec as <- <-.
  exists expr, state, root, r1. repeat split; try done;
    by destruct (restore_owned_data_shape (owned_data result) (data result) r1)
      as (? & ? & ? & ?).
Qed.

Lemma reconcile_constant_data c initial_data mem result mem' result' :
  IsConstant result = true →
  reconcile c initial_data mem result = Ok (mem', result') →
  data result' = initial_data.
Proof.
  intros Hconst. rewrite reconcile_constant by done.
  pose proof (Set_shape mem (broadcast_target c initial_data result)
                (GetValue mem result 0)) as (_ & _ & Hdata).
  intros [= Hset]. by rewrite Hset in Hdata.
Qed.

(** X16.  The result vector gets its buffer back.  Whenever
    ExecuteExpression returns a vector that points to the buffer the caller
    passed, the vector owns what the caller's vector owned; and after the
    broadcast of a constant under an input chunk the vector does point to
    the caller's buffer, so the buffer the routine referred to is left. *)
Theorem ExecuteExpression_restores_buffer ex mem expr_idx result ex' mem' result' :
  ExecuteExpression ex mem expr_idx result = Ok (ex', mem', result') →
  (data result' = data result → owned_data result' = owned_data result)
  ∧ (∀ c expr state root mem1 result1,
       chunk ex = Some c →
       expressions ex !! Z.to_nat expr_idx = Some expr →
       states ex !! Z.to_nat expr_idx = Some state →
       Execute ex mem expr (root_state state) (set_owned_data None result)
       = Ok (root, mem1, result1) →
       IsConstant result1 = true →
       data result' = data result ∧ owned_data result' = owned_data result).
Proof.
  intros (expr & state & root & mem1 & r1 & mem2 & r2 & _ & He & Hs & _ & Hexec & Hrec & _ & _ & ->)
           %ExecuteExpression_inv.
  assert (Hown : data (restore_owned_data (owned_data result) (data result) r2)
                 = data result →
                 owned_data (restore_owned_data (owned_data result) (data result) r2)
                 = owned_data result).
  { unfold restore_owned_data. by case_decide. }
  split; [exact Hown|].
  intros c expr0 state0 root0 mem0 r0 Hchunk He0 Hs0 Hexec0 Hconst.
  assert (expr0 = expr) as -> by congruence.
  assert (state0 = state) as -> by congruence.
  rewrite Hexec in Hexec0. injection Hexec0 as <- <- <-.
  rewrite Hchunk in Hrec. apply reconcile_constant_data in Hrec; [|done].
  assert (Hdata : data (restore_owned_data (owned_data result) (data result) r2)
                  = data result)
    by (by destruct (restore_owned_data_shape (owned_data result) (data result) r2)
          as (_ & _ & -> & _)).
  split; [exact Hdata|by apply Hown].
Qed.

(** X18.  ExecuteExpression(input, result) succeeds only on an executor
    with exactly one registered expression; the vector it returns has the
    row count and the selection vector of the input chunk, and the executor
    it leaves still refers to the input chunk. *)
Theorem ExecuteExpression_chunk_result ex mem input result ex' mem' result' :
  ExecuteExpression_chunk ex mem input result = Ok (ex', mem', result') →
  length (expressions ex) = 1%nat
  ∧ count result' = size input
  ∧ sel_vector result' = chunk_sel_vector input
  ∧ chunk ex' = Some input.
Proof.
  unfold Execution.ExecuteExpression_chunk, Execution.ExecuteExpression_vector.
  case_bool_decide as Hone; simpl; [|done].
  intros Hrun. split; [exact Hone|].
  pose proof Hrun as
    (expr & state & root & mem1 & r1 & mem2 & r2 & _ & _ & _ & _ & _ & Hrec & -> & _ & ->)
      %ExecuteExpression_inv.
  simpl in Hrec.
  pose proof (reconcile_count _ _ _ _ _ _ Hrec) as Hcount.
  pose proof (reconcile_sel_vector _ _ _ _ _ _ Hrec) as Hsel.
  destruct (restore_owned_data_shape (owned_data result) (data result) r2)
    as (-> & -> & _).
  done.
Qed.

(** ** The constructors *)

Lemma AddExpression_inv ex expr ex' :
  AddExpression ExpressionState R ex expr = Ok ex' →
  expression_class expr ≠ OTHER_CLASS
  ∧ expressions ex' = expressions ex ++ [expr]
  ∧ length (states ex') = Datatypes.S (length (states ex))
  ∧ chunk ex' = chunk ex.
Proof.
  unfold AddExpression, Initialize, InitializeState.
  destruct (expression_class expr) eqn:Hclass; simpl;
    try done;
    match goal with
    | |- context [?f R expr] => destruct (f R expr) as [root|]; simpl; [|done]
    end;
    intros [= <-]; simpl; rewrite length_app; simpl; repeat split; try done; lia.
Qed.

Lemma register_all exprs ex ex' :
  foldlM (AddExpression ExpressionState R) exprs ex = Ok ex' →
  Forall (λ expr, expression_class expr ≠ OTHER_CLASS) exprs
  ∧ expressions ex' = expressions ex ++ exprs
  ∧ length (states ex') = (length (states ex) + length exprs)%nat
  ∧ chunk ex' = chunk ex.
Proof.
  revert ex. induction exprs as [|expr exprs IH]; intros ex; simpl.
  - intros [= <-]. rewrite app_nil_r. repeat split; [constructor|lia].
  - destruct (AddExpression ExpressionState R ex expr) as [ex1|] eqn:Hadd; simpl; [|done].
    apply AddExpression_inv in Hadd as (Hclass & Hexprs & Hstates & Hchunk).
    intros (Hall & Hexprs' & Hstates' & Hchunk')%IH.
    repeat split.
    + by constructor.
    + by rewrite Hexprs', Hexprs, <- app_assoc.
    + lia.
    + congruence.
Qed.

(** X19.  The constructor from a list of expressions gives, when it
    succeeds, an executor that holds the expressions in the order of the
    list, one state per expression and no chunk; it fails on the empty list
    and when one of the expressions has a class it cannot initialise. *)
Theorem new_ExpressionExecutor_exprs_registers exprs ex :
  new_ExpressionExecutor_exprs ExpressionState R exprs = Ok ex →
  exprs ≠ []
  ∧ Forall (λ expr, expression_class expr ≠ OTHER_CLASS) exprs
  ∧ expressions ex = exprs
  ∧ length (states ex) = length exprs
  ∧ chunk ex = None.
Proof.
  unfold new_ExpressionExecutor_exprs.
  case_bool_decide as Hlen; simpl; [|done].
  intros (Hall & Hexprs & Hstates & Hchunk)%register_all.
  split; [by destruct exprs; [simpl in Hlen; lia|]|]. by repeat split.
Qed.

(** ** EvaluateScalar *)

(** X20.  EvaluateScalar returns a value only for a foldable expression of
    a class the executor dispatches on; for every other expression it
    fails, and for an expression that is not foldable it fails before
    anything is executed. *)
Theorem EvaluateScalar_requires mem expr :
  (∀ mem' v, EvaluateScalar mem expr = Ok (mem', v) →
     IsFoldable expr = true ∧ expression_class expr ≠ OTHER_CLASS)
  ∧ (IsFoldable expr = false → EvaluateScalar mem expr = Throw AssertionFailure).
Proof.
  split.
  - intros mem' v. unfold Execution.EvaluateScalar.
    destruct (IsFoldable expr); simpl; [|done].
    unfold new_ExpressionExecutor.
    destruct (AddExpression _ _ _ _) as [ex1|] eqn:Hadd; simpl; [|done].
    apply AddExpression_inv in Hadd as (Hclass & _). done.
  - intros Hfold. unfold Execution.EvaluateScalar. by rewrite Hfold.
Qed.

(** ** Selection *)

Lemma select_row_length mem intermediate positions acc acc' :
  foldlM (select_row mem intermediate) positions acc = Ok acc' →
  0 ≤ acc.1 →
  length acc'.2 = length acc.2
  ∧ 0 ≤ acc'.1 ≤ acc.1 + Z.of_nat (length positions).
Proof.
  revert acc. induction positions as [|i positions IH]; intros [n result]; simpl.
  - intros [= <-] Hn. simpl. lia.
  - destruct (is_selected mem intermediate i).
    + case_decide as Hroom; simpl; [|done].
      intros Hrest Hn. apply IH in Hrest as [Hlen Hcount]; [|apply to_index_t_range].
      simpl in *. rewrite length_insert in Hlen.
      pose proof (to_index_t_le (n + 1) ltac:(lia)). lia.
    + simpl. intros Hrest Hn. apply IH in Hrest as [Hlen Hcount]; simpl in *; [lia|done].
Qed.

(** X21.  DefaultSelect never changes the length of the output buffer, and
    when the evaluated vector is not constant it returns at most as many
    positions as that vector has rows. *)
Theorem DefaultSelect_bounds ex mem expr state result state' mem' n result' :
  DefaultSelect ex mem expr state result = Ok (state', mem', (n, result')) →
  length result' = length result
  ∧ ∀ state1 mem1 intermediate,
      Execute ex (alloc mem).2 expr state (intermediate_vector (alloc mem).1)
      = Ok (state1, mem1, intermediate) →
      IsConstant intermediate = false →
      0 ≤ n ≤ Z.max 0 (count intermediate).
Proof.
  unfold Execution.DefaultSelect. simpl.
  destruct (Execution.Execute _ _ _ _ _ _ _ _ _) as [[[st1 mem1] iv]|] eqn:Hexec;
    simpl; [|done].
  destruct (IsConstant iv) eqn:Hconst.
  - destruct (is_selected mem1 iv 0).
    + destruct (chunk ex); [|done]. intros [= _ _ _ <-]. split; [done|].
      intros ? ? ? [= _ _ <-] ?. congruence.
    + intros [= _ _ _ <-]. split; [done|].
      intros ? ? ? [= _ _ <-] ?. congruence.
  - destruct (foldlM _ _ _) as [[n' r']|] eqn:Hscan; simpl; [|done].
    intros [= _ _ <- <-].
    apply select_row_length in Hscan as [Hlen Hcount]; [|done]. simpl in *.
    split; [done|]. intros ? ? ? [= _ _ <-] _.
    unfold Exec_indices in Hcount. rewrite length_fmap, length_seqZ in Hcount. lia.
Qed.

(** X22.  SelectExpression on an executor whose one expression is boolean,
    has no specialised selector and evaluates to a constant vector returns
    the row count of the input chunk when the constant is true and not NULL,
    and 0 otherwise; it leaves the output buffer as it was. *)
Theorem SelectExpression_constant ex mem input result expr state root mem1 intermediate :
  expressions ex = [expr] → states ex = [state] →
  return_type expr = BOOLEAN →
  expression_class expr ≠ BOUND_BETWEEN →
  expression_class expr ≠ BOUND_COMPARISON →
  expression_class expr ≠ BOUND_CONJUNCTION →
  Execute (SetChunk ex (Some input)) (alloc mem).2 expr (root_state state)
    (intermediate_vector (alloc mem).1) = Ok (root, mem1, intermediate) →
  IsConstant intermediate = true →
  SelectExpression ex mem input result
  = Ok (set_root_state (SetChunk ex (Some input)) 0 root, mem1,
        (if is_selected mem1 intermediate 0 then size input else 0, result)).
Proof.
  intros Hexprs Hstates Htype Hbetween Hcomparison Hconjunction Hexec Hconst.
  unfold Execution.SelectExpression. rewrite Hexprs. simpl.
  rewrite Hexprs, Hstates. simpl.
  rewrite (Select_without_specialised_selector ExpressionState Reset Vector_Verify R)
    by done.
  unfold Execution.DefaultSelect. simpl in *. rewrite Hexec. simpl. rewrite Hconst.
  by destruct (is_selected mem1 intermediate 0).
Qed.

End ExecutionExtras.

(** * The further properties on concrete inputs *)

Section ExtraInstances.

Import Storage Execution Sample.

Local Abbreviation Execute := (Execute no_state no_reset verified routines).
Local Abbreviation ExecuteExpression := (ExecuteExpression no_state no_reset verified routines).
Local Abbreviation ExecuteExpression_chunk :=
  (ExecuteExpression_chunk no_state no_reset verified routines).
Local Abbreviation EvaluateScalar := (EvaluateScalar no_state no_reset verified routines).
Local Abbreviation DefaultSelect := (DefaultSelect no_state no_reset verified routines).
Local Abbreviation SelectExpression := (SelectExpression no_state no_reset verified routines).

Local Ltac run_it :=
  match goal with |- ?A ∧ _ => assert (Hrun : A) by reflexivity end.

Lemma writers_hold_exclusive_lock_witness :
  lock_discipline false (new_events deleted reverted) = true.
Proof.
  destruct (writers_hold_exclusive_lock 1024 (OpRevertAppend 1024 2047) deleted reverted)
    as [_ Hlocked]; [by vm_compute|exact Hlocked].
Defined.

Lemma rows_of_the_manager_witness :
  base_row appended = base_row empty_manager
  ∧ max_row appended = to_index_t (max_row empty_manager + 6).
Proof. apply (rows_of_the_manager 1024 (OpAppend txn 0 6 9)). reflexivity. Defined.

(** Row 1029 was deleted, row 1030 was not. *)
Lemma readers_delegate_witness :
  (Fetch 1024 unless_deleted deleted txn 1029).1 = false
  ∧ (Fetch 1024 unless_deleted deleted txn 1030).1 = true.
Proof.
  destruct (readers_delegate 1024 ltac:(lia) hide_all unless_deleted deleted txn)
    as [_ Hfetch].
  destruct (Hfetch 1029 (ChunkDeleteInfo 1024 {[5 := 7]})) as [-> _];
    [by vm_compute|lia|by vm_compute|].
  destruct (Hfetch 1030 (ChunkDeleteInfo 1024 {[5 := 7]})) as [-> _];
    [by vm_compute|lia|by vm_compute|].
  split; by vm_compute.
Defined.

Lemma Delete_leaves_other_blocks_witness :
  ∃ m' txn', Delete 1024 rows_5_3 deleted txn ids_5_3 = Ok (m', txn')
             ∧ info m' !! 1 = info deleted !! 1.
Proof.
  do 2 eexists. run_it. split; [exact Hrun|].
  apply (Delete_leaves_other_blocks 1024 _ _ _ _ _ _ 1 Hrun).
  apply (bool_decide_unpack _). by vm_compute.
Defined.

Lemma Delete_keeps_entries_and_stamps_witness :
  ∃ m' txn', Delete 1024 rows_5_3 appended txn ids_5_3 = Ok (m', txn')
             ∧ keeps_stamps appended m'.
Proof.
  do 2 eexists. run_it. split; [exact Hrun|].
  exact (Delete_keeps_entries_and_stamps 1024 _ _ _ _ _ _ Hrun).
Defined.


Lemma Delete_marks_every_row_witness :
  ∃ m' txn', Delete 1024 rows_5_3 empty_manager txn ids_5_3 = Ok (m', txn')
             ∧ marked m' 0 5 7 ∧ marked m' 0 3 7.
Proof.
  do 2 eexists. run_it. split; [exact Hrun|].
  assert (Hids : Forall (λ i, base_row empty_manager ≤ cells rows_5_3 (data ids_5_3) i < 2 ^ 63)
                   (Exec_indices rows_5_3 ids_5_3)).
  { repeat constructor; by vm_compute. }
  pose proof (λ Hsmall Hbase Hsize,
                Delete_marks_every_row 1024 ltac:(lia) rows_5_3 empty_manager txn ids_5_3
                  _ _ Hsmall Hbase Hsize Hids Hrun) as Hmarks.
  split.
  - apply (Hmarks ltac:(lia) ltac:(simpl; lia) ltac:(simpl; lia) 5).
    apply (bool_decide_unpack _). by vm_compute.
  - apply (Hmarks ltac:(lia) ltac:(simpl; lia) ltac:(simpl; lia) 3).
    apply (bool_decide_unpack _). by vm_compute.
Defined.

(** Appending six rows to block 0 leaves the delete-info of block 1. *)
Lemma Append_leaves_other_blocks_witness :
  info (Append 1024 deleted txn 0 6 9) !! 1 = info deleted !! 1.
Proof.
  apply (Append_leaves_other_blocks 1024); [lia..|]. right. reflexivity.
Defined.

(** Appending the 1024 rows of block 0 makes an insert-info for block 1. *)
Lemma Append_covers_blocks_witness :
  has_insert_info (Append 1024 empty_manager txn 0 1024 9) 1.
Proof.
  apply (Append_covers_blocks 1024); [lia..|]. split; by vm_compute.
Defined.

(** Appending the rows 6 to 9 leaves the stamp of row 3. *)
Lemma Append_changes_no_other_stamp_witness :
  slot (Append 1024 appended txn 6 4 11) 0 3 = slot appended 0 3.
Proof. apply (Append_changes_no_other_stamp 1024); lia. Defined.

Lemma RevertAppend_undoes_Append_witness :
  ∃ m', RevertAppend 1024 (Append 1024 empty_manager txn 1024 1024 9) 1024 (1024 + 1024)
        = Some m'
        ∧ info m' = info empty_manager.
Proof.
  apply (RevertAppend_undoes_Append 1024); [lia..|reflexivity|].
  intros block _. apply lookup_empty.
Defined.

Lemma RevertAppend_twice_witness :
  ∃ m2, RevertAppend 1024 reverted 1024 2047 = Some m2 ∧ info m2 = info reverted.
Proof.
  apply (RevertAppend_twice 1024 ltac:(lia) deleted); [lia|lia|by vm_compute].
Defined.

Lemma Execute_postcondition_witness :
  ∃ state' mem' result',
    Execute (executor_of constant_expression None) flags_plain constant_expression None
      integer_result = Ok (state', mem', result')
    ∧ type result' = INTEGER ∧ verified mem' result' = true
    ∧ expression_class constant_expression ≠ OTHER_CLASS.
Proof.
  do 3 eexists. run_it. split; [exact Hrun|].
  exact (Execute_postcondition _ _ _ _ _ _ _ _ _ _ _ _ Hrun).
Defined.

Lemma ExecuteExpression_length_witness :
  ∃ ex' mem' result',
    ExecuteExpression (executor_of constant_expression (Some three_rows)) flags_plain 0
      integer_result = Ok (ex', mem', result')
    ∧ count result' = 3.
Proof.
  do 3 eexists. run_it. split; [exact Hrun|].
  exact (ExecuteExpression_length no_state no_reset verified routines
           (executor_of constant_expression (Some three_rows)) flags_plain 0 integer_result
           three_rows _ _ _ eq_refl Hrun).
Defined.

Lemma ExecuteExpression_without_chunk_witness :
  ∃ ex' mem' result',
    ExecuteExpression (executor_of constant_expression None) flags_plain 0
      integer_result = Ok (ex', mem', result')
    ∧ count result' = 1 ∧ sel_vector result' = None.
Proof.
  do 3 eexists. run_it. split; [exact Hrun|].
  destruct (ExecuteExpression_without_chunk no_state no_reset verified routines
              (executor_of constant_expression None) flags_plain 0 integer_result
              _ _ _ eq_refl Hrun)
    as (expr & state & root & result1 & _ & _ & _ & Hcount & Hsel & _).
  split; reflexivity.
Defined.

Lemma ExecuteExpression_restores_buffer_witness :
  ∃ ex' mem' result',
    ExecuteExpression (executor_of constant_expression (Some three_rows)) flags_plain 0
      integer_result = Ok (ex', mem', result')
    ∧ data result' = data integer_result
    ∧ owned_data result' = owned_data integer_result.
Proof.
  do 3 eexists. run_it. split; [exact Hrun|].
  destruct (ExecuteExpression_restores_buffer _ _ _ _ _ _ _ _ _ _ _ Hrun) as [_ Hbuffer].
  eapply (Hbuffer three_rows constant_expression {| root_state := None |});
    reflexivity.
Defined.

Lemma ExecuteExpression_chunk_result_witness :
  ∃ ex' mem' result',
    ExecuteExpression_chunk (executor_of constant_expression None) flags_plain three_rows
      integer_result = Ok (ex', mem', result')
    ∧ count result' = 3 ∧ sel_vector result' = None ∧ chunk ex' = Some three_rows.
Proof.
  do 3 eexists. run_it. split; [exact Hrun|].
  exact (proj2 (ExecuteExpression_chunk_result _ _ _ _ _ _ _ _ _ _ _ Hrun)).
Defined.

Lemma new_ExpressionExecutor_exprs_registers_witness :
  ∃ ex, new_ExpressionExecutor_exprs no_state routines
          [constant_expression; flag_expression] = Ok ex
        ∧ expressions ex = [constant_expression; flag_expression]
        ∧ length (states ex) = 2%nat ∧ chunk ex = None.
Proof.
  eexists. run_it. split; [exact Hrun|].
  exact (proj2 (proj2 (new_ExpressionExecutor_exprs_registers _ _ _ _ Hrun))).
Defined.

Lemma EvaluateScalar_requires_witness :
  EvaluateScalar flags_plain flag_expression = Throw AssertionFailure.
Proof.
  apply (proj2 (EvaluateScalar_requires no_state no_reset verified routines flags_plain
                  flag_expression)). reflexivity.
Defined.

Lemma DefaultSelect_bounds_witness :
  ∃ state' mem' n result',
    DefaultSelect (executor_of flag_expression (Some flags_plain_chunk)) flags_plain
      flag_expression None [9; 9; 9; 9] = Ok (state', mem', (n, result'))
    ∧ length result' = 4%nat ∧ 0 ≤ n ≤ 4.
Proof.
  do 4 eexists. run_it. split; [exact Hrun|].
  destruct (DefaultSelect_bounds _ _ _ _ _ _ _ _ _ _ _ _ _ Hrun) as [Hlength Hcount].
  split; [exact Hlength|].
  assert (∃ state1 mem1 intermediate,
            Execute (executor_of flag_expression (Some flags_plain_chunk))
              (alloc flags_plain).2 flag_expression None
              (intermediate_vector (alloc flags_plain).1)
            = Ok (state1, mem1, intermediate)
            ∧ IsConstant intermediate = false ∧ count intermediate = 4)
    as (state1 & mem1 & intermediate & Hexecute & Hconstant & Hrows).
  { do 3 eexists. split; [reflexivity|]. split; reflexivity. }
  pose proof (Hcount _ _ _ Hexecute Hconstant) as Hbound.
  rewrite Hrows in Hbound. exact Hbound.
Defined.

Lemma SelectExpression_constant_witness :
  ∃ ex' mem',
    SelectExpression (executor_of true_expression None) flags_plain three_rows [9; 9; 9]
    = Ok (ex', mem', (3, [9; 9; 9])).
Proof.
  assert (∃ root mem1 intermediate,
            Execute (SetChunk (executor_of true_expression None) (Some three_rows))
              (alloc flags_plain).2 true_expression None
              (intermediate_vector (alloc flags_plain).1)
            = Ok (root, mem1, intermediate)
            ∧ IsConstant intermediate = true ∧ is_selected mem1 intermediate 0 = true)
    as (root & mem1 & intermediate & Hexecute & Hconstant & Htrue).
  { do 3 eexists. split; [reflexivity|]. split; reflexivity. }
  do 2 eexists.
  rewrite (SelectExpression_constant no_state no_reset verified routines
             (executor_of true_expression None) flags_plain three_rows [9; 9; 9]
             true_expression {| root_state := None |} root mem1 intermediate
             eq_refl eq_refl eq_refl ltac:(done) ltac:(done) ltac:(done)
             Hexecute Hconstant).
  rewrite Htrue. reflexivity.
Defined.

End ExtraInstances.
